(** * VeriFlow: the FSM DSL parser and validator of [digital_design_agent.py]

    A shallow embedding of the [StateMachine], [DSLParser] and [Validator]
    classes, with the properties of the design document stated and settled
    against it.

    Modelling conventions.
    - A Python [str] is a list of 8-bit characters ([text]).  The DSL is
      ASCII; characters above 127 are kept as they are and belong to no
      character class.
    - A Python [dict] is an association list in insertion order: assigning
      to an existing key keeps its position, a new key goes to the end.
    - A value that may be [None] is an [option]; calling a method on [None]
      raises [AttributeError], testing membership in [None] raises
      [TypeError].  Code that can raise returns a [result].
    - [re] patterns are values of a small regular-expression syntax run by
      a backtracking matcher with the priorities of Python's engine
      (greedy and lazy repetition, optional groups, leftmost match).
    - A Python [set] is iterated in an order the language leaves open;
      the validator takes that order as a parameter.
    - The file of the state machine is its text or nothing; [json.dumps]
      with [indent=2] and [json.loads] are a printer and a scanner of JSON
      values. *)

From Stdlib Require Import List Ascii String Bool Arith Lia Permutation.
From Stdlib Require Import DecimalString.
Import ListNotations.
Open Scope list_scope.

Set Implicit Arguments.

(* ------------------------------------------------------------------ *)
(** ** Text *)

Definition text := list ascii.

Definition txt (s : string) : text := list_ascii_of_string s.

Definition text_eq_dec : forall a b : text, {a = b} + {a <> b} :=
  list_eq_dec ascii_dec.

Definition text_eqb (a b : text) : bool :=
  if text_eq_dec a b then true else false.

Definition code (c : ascii) : nat := nat_of_ascii c.

Definition between (lo hi : nat) (c : ascii) : bool :=
  (lo <=? code c) && (code c <=? hi).

(** [str.isspace] on one character: TAB..CR, FS..US and the blank. *)
Definition isspace (c : ascii) : bool :=
  between 9 13 c || between 28 32 c.

Definition isupper (c : ascii) : bool := between 65 90 c.
Definition islower (c : ascii) : bool := between 97 122 c.
Definition isdigit (c : ascii) : bool := between 48 57 c.

(** The class [\w]: letters, digits and the underscore. *)
Definition isword (c : ascii) : bool :=
  isupper c || islower c || isdigit c || (code c =? 95).

Definition upper_char (c : ascii) : ascii :=
  if islower c then ascii_of_nat (code c - 32) else c.

Definition lower_char (c : ascii) : ascii :=
  if isupper c then ascii_of_nat (code c + 32) else c.

(** [s.upper()] and [s.lower()]. *)
Definition upper (s : text) : text := map upper_char s.
Definition lower (s : text) : text := map lower_char s.

Fixpoint lstrip (s : text) : text :=
  match s with
  | c :: s' => if isspace c then lstrip s' else s
  | [] => []
  end.

Definition rstrip (s : text) : text := rev (lstrip (rev s)).

(** [s.strip()]. *)
Definition strip (s : text) : text := rstrip (lstrip s).

(** [s.startswith(p)]. *)
Fixpoint startswith (p s : text) : bool :=
  match p, s with
  | [], _ => true
  | a :: p', b :: s' => Ascii.eqb a b && startswith p' s'
  | _ :: _, [] => false
  end.

(** [p in s] for strings. *)
Fixpoint contains (p s : text) : bool :=
  startswith p s ||
  match s with
  | [] => false
  | _ :: s' => contains p s'
  end.

(** [s.split(sep)] for a one-character separator: never empty. *)
Fixpoint split (sep : ascii) (s : text) : list text :=
  match s with
  | [] => [[]]
  | c :: s' =>
      if Ascii.eqb c sep then [] :: split sep s'
      else match split sep s' with
           | w :: ws => (c :: w) :: ws
           | [] => [[c]]
           end
  end.

(** [s.split(sep, 1)[1]] when [sep in s]: what follows the first [sep]. *)
Fixpoint after_first (sep : ascii) (s : text) : option text :=
  match s with
  | [] => None
  | c :: s' => if Ascii.eqb c sep then Some s' else after_first sep s'
  end.

(** [sep.join(xs)]. *)
Fixpoint join (sep : text) (xs : list text) : text :=
  match xs with
  | [] => []
  | [x] => x
  | x :: xs' => x ++ sep ++ join sep xs'
  end.

Definition nonempty (s : text) : bool :=
  match s with [] => false | _ => true end.

(* ------------------------------------------------------------------ *)
(** ** Exceptions *)

Inductive exn := AttributeError | TypeError | KeyError.

Inductive result (A : Type) :=
| Ok (a : A)
| Raise (e : exn).

Arguments Ok {A} a.
Arguments Raise {A} e.

Definition bind {A B} (r : result A) (f : A -> result B) : result B :=
  match r with
  | Ok a => f a
  | Raise e => Raise e
  end.

Notation "x <- r ;; k" := (bind r (fun x => k))
  (at level 61, r at next level, right associativity).

(** Method call on a value that may be [None]. *)
Definition method {A} (o : option text) (f : text -> A) : result A :=
  match o with
  | Some s => Ok (f s)
  | None => Raise AttributeError
  end.

(** [p in o] on a value that may be [None]. *)
Definition py_in (p : text) (o : option text) : result bool :=
  match o with
  | Some s => Ok (contains p s)
  | None => Raise TypeError
  end.

(** A value that may be [None] inside an f-string. *)
Definition format (o : option text) : text :=
  match o with
  | Some s => s
  | None => txt "None"
  end.

(* ------------------------------------------------------------------ *)
(** ** Dictionaries *)

Section Dict.
Variable V : Type.

Definition dict := list (text * V).

Fixpoint dict_get (k : text) (d : dict) : option V :=
  match d with
  | [] => None
  | (k', v) :: d' => if text_eq_dec k k' then Some v else dict_get k d'
  end.

Definition dict_mem (k : text) (d : dict) : bool :=
  match dict_get k d with Some _ => true | None => false end.

(** [d[k] = v] *)
Fixpoint dict_set (k : text) (v : V) (d : dict) : dict :=
  match d with
  | [] => [(k, v)]
  | (k', v') :: d' =>
      if text_eq_dec k k' then (k', v) :: d'
      else (k', v') :: dict_set k v d'
  end.

Definition keys (d : dict) : list text := map fst d.
Definition values (d : dict) : list V := map snd d.

(** [d.get(k, default)] *)
Definition dict_get_default (k : text) (default : V) (d : dict) : V :=
  match dict_get k d with Some v => v | None => default end.

(** [d[k]] *)
Definition subscript (k : text) (d : dict) : result V :=
  match dict_get k d with Some v => Ok v | None => Raise KeyError end.
End Dict.

(* ------------------------------------------------------------------ *)
(** ** Regular expressions *)

Inductive cclass := Word | Space | Dot.

Definition in_class (k : cclass) (c : ascii) : bool :=
  match k with
  | Word => isword c
  | Space => isspace c
  | Dot => negb (code c =? 10)
  end.

Inductive regex :=
| Eps
| Lit (c : ascii)
| Cat (r1 r2 : regex)
| Star (k : cclass)
| Plus (k : cclass)
| StarLazy (k : cclass)
| Opt (r : regex)
| Group (name : text) (r : regex).

(** A literal string of the pattern. *)
Fixpoint lits (s : text) : regex :=
  match s with
  | [] => Eps
  | c :: s' => Cat (Lit c) (lits s')
  end.

Fixpoint seq (rs : list regex) : regex :=
  match rs with
  | [] => Eps
  | r :: rs' => Cat r (seq rs')
  end.

Definition captures := dict text.

Section Matcher.
Variable A : Type.

(** Greedy repetition of a class: longest first, then give back. *)
Fixpoint star_greedy (k : cclass) (s : text) (cont : text -> option A)
  : option A :=
  match s with
  | c :: s' =>
      if in_class k c then
        match star_greedy k s' cont with
        | Some a => Some a
        | None => cont s
        end
      else cont s
  | [] => cont []
  end.

(** Lazy repetition of a class: shortest first, then take one more. *)
Fixpoint star_lazy (k : cclass) (s : text) (cont : text -> option A)
  : option A :=
  match cont s with
  | Some a => Some a
  | None =>
      match s with
      | c :: s' => if in_class k c then star_lazy k s' cont else None
      | [] => None
      end
  end.

(** [rmatch r s g cont]: match [r] at the head of [s] with the captures
    [g] so far, then run [cont] on the rest; on failure of [cont] the
    next alternative of [r] is tried.  Letters of the pattern match in
    either case ([re.IGNORECASE]). *)
Fixpoint rmatch (r : regex) (s : text) (g : captures)
         (cont : text -> captures -> option A) : option A :=
  match r with
  | Eps => cont s g
  | Lit c =>
      match s with
      | x :: s' =>
          if Ascii.eqb (lower_char x) (lower_char c) then cont s' g else None
      | [] => None
      end
  | Cat r1 r2 => rmatch r1 s g (fun s' g' => rmatch r2 s' g' cont)
  | Star k => star_greedy k s (fun s' => cont s' g)
  | Plus k =>
      match s with
      | x :: s' =>
          if in_class k x then star_greedy k s' (fun s'' => cont s'' g)
          else None
      | [] => None
      end
  | StarLazy k => star_lazy k s (fun s' => cont s' g)
  | Opt r1 =>
      match rmatch r1 s g cont with
      | Some a => Some a
      | None => cont s g
      end
  | Group name r1 =>
      rmatch r1 s g
        (fun s' g' =>
           cont s' (dict_set name (firstn (List.length s - List.length s') s) g'))
  end.
End Matcher.

(** The continuation at the end of a pattern: the match is found. *)
Definition accept : text -> captures -> option captures :=
  fun _ g => Some g.

(** [re.match(r, s, re.IGNORECASE)]: the captures of a match at the start. *)
Definition re_match (r : regex) (s : text) : option captures :=
  rmatch r s [] accept.

(** [re.search(r, s, re.IGNORECASE)]: the leftmost match. *)
Fixpoint re_search (r : regex) (s : text) : option captures :=
  match re_match r s with
  | Some g => Some g
  | None =>
      match s with
      | [] => None
      | _ :: s' => re_search r s'
      end
  end.

(** The named groups of a pattern, in order. *)
Fixpoint group_names (r : regex) : list text :=
  match r with
  | Cat r1 r2 => group_names r1 ++ group_names r2
  | Opt r1 => group_names r1
  | Group name r1 => name :: group_names r1
  | _ => []
  end.

(** [m.groupdict()]: every named group, [None] for one that took no part. *)
Definition groupdict (r : regex) (g : captures) : dict (option text) :=
  map (fun n => (n, dict_get n g)) (group_names r).

(** [m.group(name)] *)
Definition group (name : text) (g : captures) : option text :=
  dict_get name g.

(* ------------------------------------------------------------------ *)
(** ** The state machine document *)

(** A transition of one state: [{event, condition, target, comment}]. *)
Record Transition := {
  t_event : text;
  t_condition : text;
  t_target : text;
  t_comment : option text
}.

(** A global transition: [{event, actions, target, comment}]. *)
Record GlobalTransition := {
  g_event : text;
  g_actions : list text;
  g_target : text;
  g_comment : option text
}.

(** A state record: [{outputs, comment, transitions}]. *)
Record State := {
  outputs : dict text;
  comment : option text;
  transitions : list Transition
}.

Record StateMachineData := {
  header : dict text;
  assumptions : list text;
  global_transitions : list GlobalTransition;
  states : dict State
}.

Definition _get_initial_structure : StateMachineData :=
  {| header := []; assumptions := []; global_transitions := [];
     states := [] |}.

(* ------------------------------------------------------------------ *)
(** ** DSLParser *)

Record DSLParser := {
  sm : StateMachineData;
  current_section : option text;
  current_from_state : option text
}.

Definition with_sm (p : DSLParser) (d : StateMachineData) : DSLParser :=
  {| sm := d; current_section := current_section p;
     current_from_state := current_from_state p |}.

(** [#\s*KEYWORD:\s*] followed by group 1, the rest of the line. *)
Definition pat_header (keyword : text) : regex :=
  seq [Lit "#"%char; Star Space; lits keyword; Lit ":"%char; Star Space;
       Group (txt "1") (Star Dot)].

(** [ON_EVENT\((?P<event>\w+)\):\s*(DO\((?P<actions>.*?)\))?\s*->\s*TO\((?P<target>\w+)\)] *)
Definition pat_global : regex :=
  seq [lits (txt "ON_EVENT("); Group (txt "event") (Plus Word);
       lits (txt "):"); Star Space;
       Opt (seq [lits (txt "DO("); Group (txt "actions") (StarLazy Dot);
                 Lit ")"%char]);
       Star Space; lits (txt "->"); Star Space;
       lits (txt "TO("); Group (txt "target") (Plus Word); Lit ")"%char].

(** [\[Output:\s*(?P<outputs>.*?)\]], the optional clause of a state. *)
Definition output_clause : regex :=
  seq [lits (txt "[Output:"); Star Space;
       Group (txt "outputs") (StarLazy Dot); Lit "]"%char].

(** [(?P<state>\w+)\s*(\[Output:\s*(?P<outputs>.*?)\])?] *)
Definition pat_state : regex :=
  seq [Group (txt "state") (Plus Word); Star Space; Opt output_clause].

(** [FROM\((?P<state>\w+)\):] *)
Definition pat_from : regex :=
  seq [lits (txt "FROM("); Group (txt "state") (Plus Word); lits (txt "):")].

(** [ON_EVENT\((?P<event>\w+)\):\s*(IF\s*\((?P<condition>.*?)\))?\s*->\s*TO\((?P<target>\w+)\)] *)
Definition pat_trans : regex :=
  seq [lits (txt "ON_EVENT("); Group (txt "event") (Plus Word);
       lits (txt "):"); Star Space;
       Opt (seq [lits (txt "IF"); Star Space; Lit "("%char;
                 Group (txt "condition") (StarLazy Dot); Lit ")"%char]);
       Star Space; lits (txt "->"); Star Space;
       lits (txt "TO("); Group (txt "target") (Plus Word); Lit ")"%char].

Definition _extract_comment (line : text) : option text :=
  option_map strip (after_first "#"%char line).

Definition set_header (k v : text) (d : StateMachineData) : StateMachineData :=
  {| header := dict_set k v (header d); assumptions := assumptions d;
     global_transitions := global_transitions d; states := states d |}.

Definition add_assumption (v : text) (d : StateMachineData)
  : StateMachineData :=
  {| header := header d; assumptions := assumptions d ++ [v];
     global_transitions := global_transitions d; states := states d |}.

Definition add_global (t : GlobalTransition) (d : StateMachineData)
  : StateMachineData :=
  {| header := header d; assumptions := assumptions d;
     global_transitions := global_transitions d ++ [t]; states := states d |}.

Definition with_states (s : dict State) (d : StateMachineData)
  : StateMachineData :=
  {| header := header d; assumptions := assumptions d;
     global_transitions := global_transitions d; states := s |}.

Definition header_directive (keyword : text) (line : text)
           (f : text -> StateMachineData -> StateMachineData)
           (d : StateMachineData) : result StateMachineData :=
  match re_match (pat_header keyword) line with
  | Some m => v <- method (group (txt "1") m) strip ;; Ok (f v d)
  | None => Ok d
  end.

Definition _parse_header (p : DSLParser) (line : text) : result DSLParser :=
  d1 <- header_directive (txt "FEATURE") line (set_header (txt "feature"))
          (sm p) ;;
  d2 <- header_directive (txt "INTENT") line (set_header (txt "intent")) d1 ;;
  d3 <- header_directive (txt "ASSUME") line add_assumption d2 ;;
  Ok (with_sm p d3).

Definition _is_section_header (line : text) : bool :=
  startswith (txt "GLOBAL_TRANSITIONS:") (upper line)
  || startswith (txt "STATE_LIST:") (upper line)
  || startswith (txt "TRANSITIONS:") (upper line).

Definition _set_section (p : DSLParser) (line : text) : DSLParser :=
  {| sm := sm p;
     current_section := Some (hd [] (split ":"%char (upper line)));
     current_from_state := None |}.

Definition _parse_global_transition (p : DSLParser) (line : text)
  : result DSLParser :=
  match re_search pat_global line with
  | Some m =>
      let data := groupdict pat_global m in
      parts <- method (dict_get_default (txt "actions") (Some []) data)
                 (split ","%char) ;;
      let actions :=
        map strip (filter (fun a => nonempty (strip a)) parts) in
      ev <- subscript (txt "event") data ;;
      event <- method ev upper ;;
      tg <- subscript (txt "target") data ;;
      target <- method tg upper ;;
      Ok (with_sm p
            (add_global {| g_event := event; g_actions := actions;
                           g_target := target;
                           g_comment := _extract_comment line |} (sm p)))
  | None => Ok p
  end.

(** The [Output:] clause: split on commas, each part on [=]; a part that
    does not split in two is skipped. *)
Definition parse_outputs (o : text) : dict text :=
  fold_left
    (fun d part =>
       match split "="%char part with
       | [k; v] => dict_set (strip k) (strip v) d
       | _ => d
       end)
    (split ","%char o) [].

(** A state record holds exactly the three keys that [update] writes, so
    the update of an existing or fresh record is the new record. *)
Definition _parse_state_list_item (p : DSLParser) (line : text)
  : result DSLParser :=
  match re_search pat_state line with
  | Some m =>
      let data := groupdict pat_state m in
      st <- subscript (txt "state") data ;;
      state_name <- method st upper ;;
      outs <- subscript (txt "outputs") data ;;
      let outputs_dict :=
        match outs with
        | Some (c :: o) => parse_outputs (c :: o)
        | _ => []
        end in
      Ok (with_sm p
            (with_states
               (dict_set state_name
                  {| outputs := outputs_dict;
                     comment := _extract_comment line;
                     transitions := [] |}
                  (states (sm p)))
               (sm p)))
  | None => Ok p
  end.

Definition append_transition (t : Transition) (s : State) : State :=
  {| outputs := outputs s; comment := comment s;
     transitions := transitions s ++ [t] |}.

Definition truthy (o : option text) : bool :=
  match o with
  | Some (_ :: _) => true
  | _ => false
  end.

Definition _parse_transitions_item (p : DSLParser) (line : text)
  : result DSLParser :=
  match re_match pat_from line with
  | Some from_match =>
      s <- method (group (txt "state") from_match) upper ;;
      Ok {| sm := sm p; current_section := current_section p;
            current_from_state := Some s |}
  | None =>
      if negb (truthy (current_from_state p)) then Ok p
      else
        match re_search pat_trans line with
        | Some m =>
            let data := groupdict pat_trans m in
            ev <- subscript (txt "event") data ;;
            event <- method ev upper ;;
            condition <-
              method (dict_get_default (txt "condition")
                        (Some (txt "True")) data) strip ;;
            tg <- subscript (txt "target") data ;;
            target <- method tg upper ;;
            let transition :=
              {| t_event := event; t_condition := condition;
                 t_target := target;
                 t_comment := _extract_comment line |} in
            match current_from_state p with
            | Some from =>
                match dict_get from (states (sm p)) with
                | Some s =>
                    Ok (with_sm p
                          (with_states
                             (dict_set from (append_transition transition s)
                                (states (sm p)))
                             (sm p)))
                | None => Ok p
                end
            | None => Ok p
            end
        | None => Ok p
        end
  end.

Definition _parse_line_in_section (p : DSLParser) (line : text)
  : result DSLParser :=
  match current_section p with
  | Some sec =>
      if text_eqb sec (txt "GLOBAL_TRANSITIONS") then
        _parse_global_transition p line
      else if text_eqb sec (txt "STATE_LIST") then
        _parse_state_list_item p line
      else if text_eqb sec (txt "TRANSITIONS") then
        _parse_transitions_item p line
      else Ok p
  | None => Ok p
  end.

(** The body of the loop of [parse] on one line. *)
Definition parse_line (p : DSLParser) (raw : text) : result DSLParser :=
  let line := strip raw in
  if negb (nonempty line) then Ok p
  else if startswith (txt "#") line then _parse_header p line
  else if _is_section_header line then Ok (_set_section p line)
  else _parse_line_in_section p line.

Fixpoint parse_lines (p : DSLParser) (lines : list text)
  : result DSLParser :=
  match lines with
  | [] => Ok p
  | l :: ls => p' <- parse_line p l ;; parse_lines p' ls
  end.

Definition newline : ascii := ascii_of_nat 10.

(** [DSLParser(dsl_text, state_machine).parse()]: the document after the
    parse, or the exception that ends it. *)
Definition parse (dsl_text : text) (d : StateMachineData)
  : result StateMachineData :=
  p <- parse_lines
         {| sm := d; current_section := None; current_from_state := None |}
         (split newline (strip dsl_text)) ;;
  Ok (sm p).

(** A DSL text given line by line. *)
Definition dsl (lines : list string) : text :=
  join [newline] (map txt lines).

(* ------------------------------------------------------------------ *)
(** ** StateMachine queries *)

(** A Python [set] of strings is the list of the elements put into it;
    membership is what matters, and the order of iteration is given by
    [set_iter] below. *)
Definition pyset := list text.

Definition set_mem (x : text) (s : pyset) : bool := existsb (text_eqb x) s.

(** [a - b] *)
Definition set_diff (a b : pyset) : pyset :=
  filter (fun x => negb (set_mem x b)) a.

Definition get_all_defined_states (d : StateMachineData) : pyset :=
  keys (states d).

Definition get_all_target_states (d : StateMachineData) : pyset :=
  map g_target (global_transitions d)
  ++ flat_map (fun s => map t_target (transitions s)) (values (states d)).

(* ------------------------------------------------------------------ *)
(** ** Validator *)

Definition undefined_message (names : list text) : text :=
  txt "Undefined State Error: The following states are used in transitions but not defined in STATE_LIST: "
  ++ join (txt ", ") names ++ txt ". Please define them.".

Definition deadlock_message (state_name : text) : text :=
  txt "Potential Deadlock: State '" ++ state_name
  ++ txt "' is reachable but has no outgoing transitions. Is this an intended final state?".

Definition future_message (state cmt : text) : text :=
  txt "Future-Proofing Notice: The comment for state '" ++ state
  ++ txt "' ('" ++ cmt
  ++ txt "') mentions future plans. I will keep this in mind for extensibility.".

Definition critical_message (state event : text) : text :=
  txt "Criticality Notice: Transition from '" ++ state
  ++ txt "' on event '" ++ event
  ++ txt "' is marked as critical. I will prioritize this path.".

(** A loop that appends critiques: the critiques of each round in order,
    or the first exception. *)
Fixpoint for_each {X} (xs : list X) (body : X -> result (list text))
  : result (list text) :=
  match xs with
  | [] => Ok []
  | x :: xs' =>
      c <- body x ;;
      cs <- for_each xs' body ;;
      Ok (c ++ cs)
  end.

Section Validator.
(** The order in which CPython iterates a set built from the given
    elements.  The language leaves it open (it follows the hashes of the
    strings), so it is a parameter: some order of the distinct
    elements. *)
Variable set_iter : pyset -> list text.
Hypothesis set_iter_perm :
  forall s, Permutation (set_iter s) (nodup text_eq_dec s).

Definition _check_undefined_states (d : StateMachineData) : list text :=
  let defined_states := get_all_defined_states d in
  let target_states := get_all_target_states d in
  let undefined := set_diff target_states defined_states in
  match undefined with
  | [] => []
  | _ :: _ => [undefined_message (set_iter undefined)]
  end.

Definition is_global_target (d : StateMachineData) (state_name : text)
  : bool :=
  existsb (fun t => text_eqb (g_target t) state_name)
          (global_transitions d).

Definition is_regular_target (d : StateMachineData) (state_name : text)
  : bool :=
  existsb (fun s =>
             existsb (fun t => text_eqb (t_target t) state_name)
                     (transitions s))
          (values (states d)).

Definition _find_deadlocks (d : StateMachineData) : result (list text) :=
  for_each (set_iter (get_all_defined_states d))
    (fun state_name =>
       state_data <- subscript state_name (states d) ;;
       match transitions state_data with
       | _ :: _ => Ok []
       | [] =>
           if is_global_target d state_name
              || is_regular_target d state_name
           then Ok [deadlock_message state_name]
           else Ok []
       end).

Definition _check_comment_hints (d : StateMachineData)
  : result (list text) :=
  for_each (states d)
    (fun item =>
       let (state, data) := item in
       let cmt := comment data in
       v2 <- py_in (txt "v2") cmt ;;
       hit <- (if v2 then Ok true else py_in (txt "future") cmt) ;;
       let notice :=
         if hit then [future_message state (format cmt)] else [] in
       rest <- for_each (transitions data)
                 (fun trans =>
                    low <- method (t_comment trans) lower ;;
                    if contains (txt "critical") low
                    then Ok [critical_message state (t_event trans)]
                    else Ok []) ;;
       Ok (notice ++ rest)).

Definition validate (d : StateMachineData) : result (list text) :=
  let c1 := _check_undefined_states d in
  c2 <- _find_deadlocks d ;;
  c3 <- _check_comment_hints d ;;
  Ok (c1 ++ c2 ++ c3).
End Validator.

(* ------------------------------------------------------------------ *)
(** ** What the patterns mean

    The words matched by a pattern, with the captures before and after:
    the reading of a pattern that the matcher is checked against. *)

Definition all_in (k : cclass) (w : text) : Prop :=
  Forall (fun c => in_class k c = true) w.

Inductive matches : regex -> text -> captures -> captures -> Prop :=
| m_eps g : matches Eps [] g g
| m_lit c x g :
    lower_char x = lower_char c -> matches (Lit c) [x] g g
| m_cat r1 r2 w1 w2 g g1 g2 :
    matches r1 w1 g g1 -> matches r2 w2 g1 g2 ->
    matches (Cat r1 r2) (w1 ++ w2) g g2
| m_star k w g : all_in k w -> matches (Star k) w g g
| m_plus k w g : all_in k w -> w <> [] -> matches (Plus k) w g g
| m_star_lazy k w g : all_in k w -> matches (StarLazy k) w g g
| m_opt_some r w g g' : matches r w g g' -> matches (Opt r) w g g'
| m_opt_none r g : matches (Opt r) [] g g
| m_group name r w g g' :
    matches r w g g' -> matches (Group name r) w g (dict_set name w g').

(** The longest prefix in a class, and what follows it. *)
Fixpoint take_class (k : cclass) (s : text) : text :=
  match s with
  | c :: s' => if in_class k c then c :: take_class k s' else []
  | [] => []
  end.

Fixpoint drop_class (k : cclass) (s : text) : text :=
  match s with
  | c :: s' => if in_class k c then drop_class k s' else s
  | [] => []
  end.

(** What comes before the first word character, and the rest. *)
Fixpoint skip_nonword (s : text) : text :=
  match s with
  | c :: s' => if isword c then s else skip_nonword s'
  | [] => []
  end.

(** The first maximal run of word characters of a line. *)
Definition first_word_run (line : text) : text :=
  take_class Word (skip_nonword line).

(** Two texts equal up to the case of their letters. *)
Definition same_ci (a b : text) : Prop := lower a = lower b.

(* ------------------------------------------------------------------ *)
(** ** Notions used in the statements *)


(** The actions with each entry trimmed and empty entries dropped. *)
Definition actions_trimmed (contents : text) : list text :=
  filter nonempty (map strip (split ","%char contents)).

(** [line] holds the clause [open contents close], the keyword [open] in
    either case. *)
Definition has_clause (open : text) (contents : text) (close : ascii)
           (line : text) : Prop :=
  exists pre kw post,
    line = pre ++ kw ++ contents ++ close :: post /\ same_ci kw open.

Definition in_section (sec : string) (d : StateMachineData) : DSLParser :=
  {| sm := d; current_section := Some (txt sec); current_from_state := None |}.

(** The outputs that a STATE_LIST line declares: the parsed [Output:]
    clause of its match, empty without one. *)
Definition declared_outputs (line : text) : dict text :=
  match re_search pat_state line with
  | Some m =>
      match group (txt "outputs") m with
      | Some (c :: o) => parse_outputs (c :: o)
      | _ => []
      end
  | None => []
  end.

(** The record that a STATE_LIST line writes. *)
Definition declared_state (line : text) : State :=
  {| outputs := declared_outputs line;
     comment := _extract_comment line;
     transitions := [] |}.

(** [s] is the target of a global transition or of a transition of some
    state. *)
Definition referenced (d : StateMachineData) (s : text) : Prop :=
  (exists g, In g (global_transitions d) /\ g_target g = s) \/
  (exists k st t,
      In (k, st) (states d) /\ In t (transitions st) /\ t_target t = s).

(** [s] is a defined state with an empty transitions list. *)
Definition terminal (d : StateMachineData) (s : text) : Prop :=
  exists st, dict_get s (states d) = Some st /\ transitions st = [].

(** A deadlock in the narrow sense of the validator. *)
Definition deadlocked (d : StateMachineData) (s : text) : Prop :=
  terminal d s /\ referenced d s.

(** [s] is a target that is not a defined state. *)
Definition undefined_state (d : StateMachineData) (s : text) : Prop :=
  In s (get_all_target_states d) /\ ~ In s (get_all_defined_states d).

Definition deadlockedb (d : StateMachineData) (s : text) : bool :=
  match dict_get s (states d) with
  | Some st =>
      match transitions st with
      | [] => is_global_target d s || is_regular_target d s
      | _ :: _ => false
      end
  | None => false
  end.

(** The notices of the comment check as the design document words them:
    a state or transition without a comment gives none. *)
Definition state_notice (state : text) (st : State) : list text :=
  match comment st with
  | Some c =>
      if contains (txt "v2") c || contains (txt "future") c
      then [future_message state c] else []
  | None => []
  end.

Definition transition_notice (state : text) (t : Transition) : list text :=
  match t_comment t with
  | Some c =>
      if contains (txt "critical") (lower c)
      then [critical_message state (t_event t)] else []
  | None => []
  end.

Definition comment_notices (d : StateMachineData) : list text :=
  flat_map
    (fun item =>
       state_notice (fst item) (snd item)
       ++ flat_map (transition_notice (fst item)) (transitions (snd item)))
    (states d).

(** Every state and every transition carries a comment. *)
Definition all_commented (d : StateMachineData) : Prop :=
  forall k st,
    In (k, st) (states d) ->
    comment st <> None /\
    forall t, In t (transitions st) -> t_comment t <> None.

(** A small document: a lock with one global reset, a referenced terminal
    state, an unreferenced terminal state and a target never declared. *)
Definition door_lock : StateMachineData :=
  {| header := [(txt "feature", txt "Door Lock")];
     assumptions := [];
     global_transitions :=
       [{| g_event := txt "RESET"; g_actions := [];
           g_target := txt "IDLE_LOCKED"; g_comment := None |}];
     states :=
       [(txt "IDLE_LOCKED",
         {| outputs := [(txt "Bolt", txt "HIGH")];
            comment := Some (txt "secured, v2 adds a keypad");
            transitions :=
              [{| t_event := txt "KEY_ENTERED";
                  t_condition := txt "Code == VALID";
                  t_target := txt "IDLE_UNLOCKED";
                  t_comment := Some (txt "this path is CRITICAL") |};
               {| t_event := txt "TAMPER";
                  t_condition := txt "True";
                  t_target := txt "ALARM";
                  t_comment := Some (txt "not built yet") |}] |});
        (txt "IDLE_UNLOCKED",
         {| outputs := []; comment := Some (txt "open");
            transitions := [] |});
        (txt "SPARE",
         {| outputs := []; comment := Some (txt "unused");
            transitions := [] |})] |}.

(** One order of iteration of a set: first insertion first. *)
Definition insertion_order (s : pyset) : list text := nodup text_eq_dec s.

(* ------------------------------------------------------------------ *)
(** ** JSON, as [json.dumps(data, indent=2)] writes it and [json.loads]
    reads it

    The values a document is made of: objects, arrays, strings, [null],
    and the two booleans.  Numbers, which no document holds, are outside
    the model. *)

Unset Elimination Schemes.
Inductive json :=
| JNull
| JBool (b : bool)
| JStr (s : text)
| JArr (items : list json)
| JObj (members : list (text * json)).
Set Elimination Schemes.

Definition quote : ascii := ascii_of_nat 34.
Definition backslash : ascii := ascii_of_nat 92.

Definition hex_digit (n : nat) : ascii :=
  nth n (txt "0123456789abcdef") "0"%char.

(** One character of a string with [ensure_ascii]: the short escapes,
    the printable ASCII characters as they are, [\u00XX] for the rest. *)
Definition encode_char (c : ascii) : text :=
  if code c =? 34 then [backslash; quote]
  else if code c =? 92 then [backslash; backslash]
  else if code c =? 10 then [backslash; "n"%char]
  else if code c =? 13 then [backslash; "r"%char]
  else if code c =? 9 then [backslash; "t"%char]
  else if code c =? 8 then [backslash; "b"%char]
  else if code c =? 12 then [backslash; "f"%char]
  else if between 32 126 c then [c]
  else [backslash; "u"%char; "0"%char; "0"%char;
        hex_digit (code c / 16); hex_digit (code c mod 16)].

Definition encode_string (s : text) : text :=
  quote :: flat_map encode_char s ++ [quote].

(** A line break and the indentation of a nesting level. *)
Definition newline_indent (level : nat) : text :=
  newline :: repeat " "%char (2 * level).

Fixpoint encode (level : nat) (v : json) : text :=
  match v with
  | JNull => txt "null"
  | JBool true => txt "true"
  | JBool false => txt "false"
  | JStr s => encode_string s
  | JArr [] => txt "[]"
  | JArr items =>
      txt "[" ++ newline_indent (S level)
      ++ join (txt "," ++ newline_indent (S level))
              (map (encode (S level)) items)
      ++ newline_indent level ++ txt "]"
  | JObj [] => txt "{}"
  | JObj members =>
      txt "{" ++ newline_indent (S level)
      ++ join (txt "," ++ newline_indent (S level))
              (map (fun kv => encode_string (fst kv) ++ txt ": "
                              ++ encode (S level) (snd kv))
                   members)
      ++ newline_indent level ++ txt "}"
  end.

(** [json.dumps(v, indent=2)] *)
Definition json_dumps (v : json) : text := encode 0 v.

Definition is_ws (c : ascii) : bool :=
  (code c =? 32) || (code c =? 9) || (code c =? 10) || (code c =? 13).

Fixpoint skip_ws (s : text) : text :=
  match s with
  | c :: r => if is_ws c then skip_ws r else s
  | [] => []
  end.

Definition hex_value (c : ascii) : option nat :=
  if isdigit c then Some (code c - 48)
  else if between 97 102 c then Some (code c - 87)
  else if between 65 70 c then Some (code c - 55)
  else None.

Definition unescape (e : ascii) : option ascii :=
  if code e =? 34 then Some quote
  else if code e =? 92 then Some backslash
  else if code e =? 47 then Some "/"%char
  else if code e =? 98 then Some (ascii_of_nat 8)
  else if code e =? 102 then Some (ascii_of_nat 12)
  else if code e =? 110 then Some (ascii_of_nat 10)
  else if code e =? 114 then Some (ascii_of_nat 13)
  else if code e =? 116 then Some (ascii_of_nat 9)
  else None.

Definition hex4 (a b c d : ascii) : option nat :=
  match hex_value a, hex_value b, hex_value c, hex_value d with
  | Some x, Some y, Some z, Some w => Some (((x * 16 + y) * 16 + z) * 16 + w)
  | _, _, _, _ => None
  end.

Definition cons_char (c : ascii) (r : option (text * text))
  : option (text * text) :=
  match r with
  | Some (s, rest) => Some (c :: s, rest)
  | None => None
  end.

(** The string scanner, after the opening quote: the string and what
    follows its closing quote.  [None] is a decoding error; so is an
    escape [\uXXXX] above 255, which the 8-bit text cannot hold. *)
Fixpoint scanstring (s : text) : option (text * text) :=
  match s with
  | [] => None
  | c :: r =>
      if code c =? 34 then Some ([], r)
      else if code c =? 92 then
        match r with
        | [] => None
        | e :: r1 =>
            if code e =? 117 then
              match r1 with
              | a :: b :: c1 :: d :: r2 =>
                  match hex4 a b c1 d with
                  | Some n =>
                      if n <? 256 then cons_char (ascii_of_nat n) (scanstring r2)
                      else None
                  | None => None
                  end
              | _ => None
              end
            else
              match unescape e with
              | Some x => cons_char x (scanstring r1)
              | None => None
              end
        end
      else if code c <? 32 then None
      else cons_char c (scanstring r)
  end.

(** [dict(pairs)]: a key met again keeps its place and takes the later
    value. *)
Definition dict_of_pairs {V} (pairs : list (text * V)) : dict V :=
  fold_left (fun d kv => dict_set (fst kv) (snd kv) d) pairs [].

(** The scanner of values, and the loops of arrays and objects after
    their first bracket.  The fuel bounds the nesting and the number of
    items; [json_loads] gives the length of the text, which is enough. *)
Fixpoint scan_once (fuel : nat) (s : text) : option (json * text) :=
  match fuel with
  | O => None
  | S f =>
      match s with
      | [] => None
      | c :: r =>
          if code c =? 34 then
            match scanstring r with
            | Some (x, rest) => Some (JStr x, rest)
            | None => None
            end
          else if code c =? 123 then
            match skip_ws r with
            | c1 :: r1 =>
                if code c1 =? 125 then Some (JObj [], r1)
                else
                  match object_items f (c1 :: r1) with
                  | Some (pairs, rest) => Some (JObj (dict_of_pairs pairs), rest)
                  | None => None
                  end
            | [] => None
            end
          else if code c =? 91 then
            match skip_ws r with
            | c1 :: r1 =>
                if code c1 =? 93 then Some (JArr [], r1)
                else
                  match array_items f (c1 :: r1) with
                  | Some (items, rest) => Some (JArr items, rest)
                  | None => None
                  end
            | [] => None
            end
          else if startswith (txt "null") s then Some (JNull, skipn 4 s)
          else if startswith (txt "true") s then Some (JBool true, skipn 4 s)
          else if startswith (txt "false") s then Some (JBool false, skipn 5 s)
          else None
      end
  end

with array_items (fuel : nat) (s : text) : option (list json * text) :=
  match fuel with
  | O => None
  | S f =>
      match scan_once f s with
      | Some (v, rest) =>
          match skip_ws rest with
          | c :: r =>
              if code c =? 93 then Some ([v], r)
              else if code c =? 44 then
                match array_items f (skip_ws r) with
                | Some (vs, rest') => Some (v :: vs, rest')
                | None => None
                end
              else None
          | [] => None
          end
      | None => None
      end
  end

with object_items (fuel : nat) (s : text)
  : option (list (text * json) * text) :=
  match fuel with
  | O => None
  | S f =>
      match s with
      | c :: r =>
          if code c =? 34 then
            match scanstring r with
            | Some (key, rest) =>
                match skip_ws rest with
                | c1 :: r1 =>
                    if code c1 =? 58 then
                      match scan_once f (skip_ws r1) with
                      | Some (v, rest1) =>
                          match skip_ws rest1 with
                          | c2 :: r2 =>
                              if code c2 =? 125 then Some ([(key, v)], r2)
                              else if code c2 =? 44 then
                                match object_items f (skip_ws r2) with
                                | Some (kvs, rest2) =>
                                    Some ((key, v) :: kvs, rest2)
                                | None => None
                                end
                              else None
                          | [] => None
                          end
                      | None => None
                      end
                    else None
                | [] => None
                end
            | None => None
            end
          else None
      | [] => None
      end
  end.

(** [json.loads(s)]: one value between blanks and nothing else, or
    [None] for [JSONDecodeError]. *)
Definition json_loads (s : text) : option json :=
  match scan_once (S (List.length s)) (skip_ws s) with
  | Some (v, rest) =>
      match skip_ws rest with
      | [] => Some v
      | _ :: _ => None
      end
  | None => None
  end.

(* ------------------------------------------------------------------ *)
(** ** StateMachine: the document as a Python value, [save] and [load] *)

Definition opt_json (o : option text) : json :=
  match o with
  | Some s => JStr s
  | None => JNull
  end.

Definition str_dict_json (d : dict text) : json :=
  JObj (map (fun kv => (fst kv, JStr (snd kv))) d).

Definition transition_json (t : Transition) : json :=
  JObj [(txt "event", JStr (t_event t));
        (txt "condition", JStr (t_condition t));
        (txt "target", JStr (t_target t));
        (txt "comment", opt_json (t_comment t))].

Definition global_json (g : GlobalTransition) : json :=
  JObj [(txt "event", JStr (g_event g));
        (txt "actions", JArr (map JStr (g_actions g)));
        (txt "target", JStr (g_target g));
        (txt "comment", opt_json (g_comment g))].

Definition state_json (s : State) : json :=
  JObj [(txt "outputs", str_dict_json (outputs s));
        (txt "comment", opt_json (comment s));
        (txt "transitions", JArr (map transition_json (transitions s)))].

(** [self.data]: the nested dictionaries and lists of the document, keys
    in the order the code writes them. *)
Definition to_json (d : StateMachineData) : json :=
  JObj [(txt "header", str_dict_json (header d));
        (txt "assumptions", JArr (map JStr (assumptions d)));
        (txt "global_transitions",
         JArr (map global_json (global_transitions d)));
        (txt "states",
         JObj (map (fun kv => (fst kv, state_json (snd kv))) (states d)))].

(** The file at [file_path]: its text, or [None] when it does not
    exist. *)
Definition file := option text.

(** [save]: the file after [write_text(json.dumps(self.data, indent=2))]. *)
Definition save (d : StateMachineData) : file :=
  Some (json_dumps (to_json d)).

(** [load]: [self.data] after the call; the initial structure when the
    file is absent or does not decode. *)
Definition load (f : file) : json :=
  match f with
  | Some content =>
      match json_loads content with
      | Some v => v
      | None => to_json _get_initial_structure
      end
  | None => to_json _get_initial_structure
  end.

(** The dictionaries of a document have each key once, as every Python
    dictionary has. *)
Definition unique_keys (d : StateMachineData) : Prop :=
  NoDup (keys (header d)) /\
  NoDup (keys (states d)) /\
  Forall (fun kv => NoDup (keys (outputs (snd kv)))) (states d).

(** Induction on JSON values, through the lists of arrays and objects. *)
Definition json_ind (P : json -> Prop)
  (Hnull : P JNull) (Hbool : forall b, P (JBool b))
  (Hstr : forall s, P (JStr s))
  (Harr : forall items, Forall P items -> P (JArr items))
  (Hobj : forall members,
      Forall (fun kv => P (snd kv)) members -> P (JObj members))
  : forall v, P v :=
  fix F (v : json) : P v :=
    match v with
    | JNull => Hnull
    | JBool b => Hbool b
    | JStr s => Hstr s
    | JArr items =>
        Harr items
             ((fix G (l : list json) : Forall P l :=
                 match l with
                 | [] => Forall_nil _
                 | x :: l' => Forall_cons x (F x) (G l')
                 end) items)
    | JObj members =>
        Hobj members
             ((fix G (l : list (text * json))
                 : Forall (fun kv => P (snd kv)) l :=
                 match l with
                 | [] => Forall_nil _
                 | kv :: l' =>
                     @Forall_cons _ (fun kv => P (snd kv)) kv l'
                                  (F (snd kv)) (G l')
                 end) members)
    end.

(** A JSON value whose objects have each key once: a value that Python
    dictionaries can hold. *)
Unset Elimination Schemes.
Inductive wf_json : json -> Prop :=
| wf_null : wf_json JNull
| wf_bool b : wf_json (JBool b)
| wf_str s : wf_json (JStr s)
| wf_arr items : Forall wf_json items -> wf_json (JArr items)
| wf_obj members :
    NoDup (keys members) ->
    Forall (fun kv => wf_json (snd kv)) members ->
    wf_json (JObj members).
Set Elimination Schemes.

(** The first character of an encoded value: not a blank, and not a
    closing bracket. *)
Definition head_ok (c : ascii) : Prop :=
  is_ws c = false /\ (code c =? 93) = false /\ (code c =? 125) = false.

(** The scanner reads back the encoding of [x], at any nesting level,
    before any rest, with fuel for its length. *)
Definition scans (x : json) : Prop :=
  forall level rest f,
    List.length (encode level x) <= f ->
    scan_once f (encode level x ++ rest) = Some (x, rest).

(** The separator between the items of an array or object. *)
Definition item_separator (level : nat) : text :=
  txt "," ++ newline_indent level.

(** One member of an object as it is written. *)
Definition encode_member (level : nat) (kv : text * json) : text :=
  encode_string (fst kv) ++ txt ": " ++ encode level (snd kv).

(* ------------------------------------------------------------------ *)
(** ** What the parser writes *)

(** A name in upper case. *)
Definition is_upper (s : text) : Prop := upper s = s.

(** One write of the parser into the document: a header key, an
    assumption, a global transition, the record of a state, a transition
    at the end of the list of a declared state. *)
Inductive write : StateMachineData -> StateMachineData -> Prop :=
| w_header k v d :
    k = txt "feature" \/ k = txt "intent" -> write d (set_header k v d)
| w_assume v d : write d (add_assumption v d)
| w_global g d :
    is_upper (g_event g) -> is_upper (g_target g) ->
    write d (add_global g d)
| w_state n st d :
    is_upper n -> transitions st = [] -> NoDup (keys (outputs st)) ->
    write d (with_states (dict_set n st (states d)) d)
| w_transition from s t d :
    dict_get from (states d) = Some s ->
    is_upper (t_event t) -> is_upper (t_target t) ->
    write d (with_states
               (dict_set from (append_transition t s) (states d)) d).

(** Writes one after the other. *)
Inductive writes : StateMachineData -> StateMachineData -> Prop :=
| writes_nil d : writes d d
| writes_cons d1 d2 d3 : write d1 d2 -> writes d2 d3 -> writes d1 d3.

(** Every event, target and state name of the document is in upper
    case. *)
Definition normalized (d : StateMachineData) : Prop :=
  Forall (fun g => is_upper (g_event g) /\ is_upper (g_target g))
         (global_transitions d) /\
  Forall (fun kv =>
            is_upper (fst kv) /\
            Forall (fun t => is_upper (t_event t) /\ is_upper (t_target t))
                   (transitions (snd kv)))
         (states d).

(** [d'] holds what [d] holds and more: assumptions, global transitions
    and state names of [d] come first and in the same order; a header key
    of [d] is still a header key. *)
Definition extends (d d' : StateMachineData) : Prop :=
  (exists more, assumptions d' = assumptions d ++ more) /\
  (exists more, global_transitions d' = global_transitions d ++ more) /\
  (exists more, keys (states d') = keys (states d) ++ more) /\
  (forall k, In k (keys (header d)) -> In k (keys (header d'))).

(* ------------------------------------------------------------------ *)
(** ** The agent and the design reader *)

(** A document with no defect: two states that lead to each other, every
    state and transition with a comment. *)
Definition two_state_lock : StateMachineData :=
  {| header := [(txt "feature", txt "Door Lock")];
     assumptions := [];
     global_transitions := [];
     states :=
       [(txt "LOCKED",
         {| outputs := [(txt "Bolt", txt "HIGH")];
            comment := Some (txt "secured");
            transitions :=
              [{| t_event := txt "KEY"; t_condition := txt "Code == VALID";
                  t_target := txt "OPEN";
                  t_comment := Some (txt "unlock") |}] |});
        (txt "OPEN",
         {| outputs := [(txt "Bolt", txt "LOW")];
            comment := Some (txt "released");
            transitions :=
              [{| t_event := txt "TIMEOUT"; t_condition := txt "t > 5";
                  t_target := txt "LOCKED";
                  t_comment := Some (txt "lock again") |}] |})] |}.

(** [read_current_design] of [rag_agent.py], on the file
    [state_machine.json]: its text pretty-printed again, or one of two
    messages. *)
Definition read_current_design (f : file) : text :=
  match f with
  | Some content =>
      match json_loads content with
      | Some design => json_dumps design
      | None => txt "Error: The 'state_machine.json' file is corrupted."
      end
  | None => txt "No design currently exists."
  end.

(** An integer inside an f-string. *)
Definition str_of_nat (n : nat) : text :=
  txt (NilEmpty.string_of_uint (Nat.to_uint n)).

(** The numbered lines of the critiques, [enumerate(critiques, i)]. *)
Fixpoint numbered (i : nat) (critiques : list text) : text :=
  match critiques with
  | [] => []
  | c :: cs =>
      txt "    " ++ str_of_nat i ++ txt ". " ++ c ++ [newline]
      ++ numbered (S i) cs
  end.

Definition response_head (d : StateMachineData) : text :=
  txt "I have analyzed the DSL file. Here is my assessment:" ++ [newline]
  ++ [newline] ++ txt "- **Feature:** "
  ++ dict_get_default (txt "feature") (txt "N/A") (header d).

Section Agent.
Variable set_iter : pyset -> list text.

(** [DigitalDesignAgent.process_dsl_file]: [dsl_file] is the text of the
    file at [file_path], or [None] when there is none; [data] is the
    document of the agent and [json_file] the file of its state machine.
    The result is the response with the document and the file after the
    call, or the exception that leaves the method. *)
Definition process_dsl_file (file_path : text) (dsl_file : option text)
           (data : StateMachineData) (json_file : file)
  : result (text * StateMachineData * file) :=
  match dsl_file with
  | None =>
      Ok (txt "Error: The file '" ++ file_path ++ txt "' was not found.",
          data, json_file)
  | Some dsl_text =>
      d <- parse dsl_text data ;;
      critiques <- validate set_iter d ;;
      match critiques with
      | [] =>
          Ok (response_head d ++ [newline]
              ++ txt "- **Critique:** The design looks solid. No immediate errors or deadlocks found."
              ++ [newline; newline]
              ++ txt "I am satisfied with this specification. I have converted it to JSON and saved it.",
              d, save d)
      | _ :: _ =>
          Ok (response_head d ++ [newline]
              ++ txt "- **Critique:** I found the following points that need your attention:"
              ++ [newline] ++ numbered 1 critiques ++ [newline]
              ++ txt "Please review these points. Once addressed, I can proceed with generating the final hardware description.",
              d, json_file)
      end
  end.
End Agent.

(* ================================================================== *)
(** * Properties *)

(** ** Characters and text *)

Lemma text_eqb_eq (a b : text) : text_eqb a b = true <-> a = b.
Proof.
  unfold text_eqb; destruct (text_eq_dec a b); split; congruence.
Qed.

Lemma text_eqb_refl (a : text) : text_eqb a a = true.
Proof. now apply text_eqb_eq. Qed.

Lemma text_eqb_neq (a b : text) : text_eqb a b = false <-> a <> b.
Proof.
  unfold text_eqb; destruct (text_eq_dec a b); split; congruence.
Qed.

(** Filtering on the trimmed entry and trimming, or trimming and dropping
    the empty ones: the same list. *)
Lemma filter_strip_map (parts : list text) :
  map strip (filter (fun a => nonempty (strip a)) parts)
  = filter nonempty (map strip parts).
Proof.
  induction parts as [|a parts IH]; simpl; [reflexivity|].
  destruct (nonempty (strip a)); simpl; now rewrite IH.
Qed.

(** ** Dictionaries *)

Section DictFacts.
Variable V : Type.
Implicit Types (d : dict V) (k : text) (v : V).

Lemma dict_get_set_same k v d : dict_get k (dict_set k v d) = Some v.
Proof.
  induction d as [|[k' v'] d IH]; simpl.
  - destruct (text_eq_dec k k); congruence.
  - destruct (text_eq_dec k k') as [->|N]; simpl.
    + destruct (text_eq_dec k' k'); congruence.
    + destruct (text_eq_dec k k'); congruence.
Qed.

Lemma dict_get_set_other k k' v d :
  k' <> k -> dict_get k' (dict_set k v d) = dict_get k' d.
Proof.
  intros N; induction d as [|[k0 v0] d IH]; simpl.
  - destruct (text_eq_dec k' k); congruence.
  - destruct (text_eq_dec k k0) as [->|N0]; simpl.
    + destruct (text_eq_dec k' k0); congruence.
    + destruct (text_eq_dec k' k0); congruence.
Qed.

Lemma dict_get_in_keys k d : dict_get k d <> None <-> In k (keys d).
Proof.
  induction d as [|[k0 v0] d IH]; simpl.
  - tauto.
  - destruct (text_eq_dec k k0) as [->|N].
    + split; [now left | congruence].
    + rewrite IH. split; [now right | intros [E|H]; congruence].
Qed.

Lemma dict_get_In k v d : dict_get k d = Some v -> In (k, v) d.
Proof.
  induction d as [|[k0 v0] d IH]; simpl; [discriminate|].
  destruct (text_eq_dec k k0) as [->|N].
  - intros [= ->]; now left.
  - intros H; right; auto.
Qed.

(** Assigning to a present key keeps the keys and their order. *)
Lemma keys_dict_set_present k v d :
  In k (keys d) -> keys (dict_set k v d) = keys d.
Proof.
  induction d as [|[k0 v0] d IH]; simpl; [tauto|].
  destruct (text_eq_dec k k0) as [->|N]; simpl; [reflexivity|].
  intros [E|H]; [congruence|]. now rewrite IH.
Qed.

(** Assigning to a new key puts it last. *)
Lemma keys_dict_set_absent k v d :
  ~ In k (keys d) -> keys (dict_set k v d) = keys d ++ [k].
Proof.
  induction d as [|[k0 v0] d IH]; simpl; [reflexivity|].
  destruct (text_eq_dec k k0) as [->|N]; simpl; [tauto|].
  intros H. rewrite IH; tauto.
Qed.
End DictFacts.

(** ** The matcher against the meaning of patterns *)

Section MatcherSound.
Variable A : Type.

Lemma star_greedy_sound k s (cont : text -> option A) a :
  star_greedy k s cont = Some a ->
  exists w s', s = w ++ s' /\ all_in k w /\ cont s' = Some a.
Proof.
  induction s as [|c s IH]; simpl; intros H.
  - exists [], []. repeat split; auto. constructor.
  - destruct (in_class k c) eqn:E.
    + destruct (star_greedy k s cont) eqn:G.
      * injection H as ->.
        destruct (IH eq_refl) as (w & s' & -> & Hw & Hc).
        exists (c :: w), s'. repeat split; auto. now constructor.
      * exists [], (c :: s). repeat split; auto. constructor.
    + exists [], (c :: s). repeat split; auto. constructor.
Qed.

Lemma star_lazy_sound k s (cont : text -> option A) a :
  star_lazy k s cont = Some a ->
  exists w s', s = w ++ s' /\ all_in k w /\ cont s' = Some a.
Proof.
  induction s as [|c s IH]; simpl; intros H.
  - destruct (cont []) eqn:C; [|discriminate].
    exists [], []. repeat split; auto; [constructor | congruence].
  - destruct (cont (c :: s)) eqn:C.
    + exists [], (c :: s). repeat split; auto; [constructor | congruence].
    + destruct (in_class k c) eqn:E; [|discriminate].
      destruct (IH H) as (w & s' & -> & Hw & Hc).
      exists (c :: w), s'. repeat split; auto. now constructor.
Qed.

Lemma firstn_app_exact (w s' : text) :
  firstn (List.length (w ++ s') - List.length s') (w ++ s') = w.
Proof.
  rewrite length_app, Nat.add_sub.
  rewrite firstn_app, Nat.sub_diag, firstn_all. simpl.
  now rewrite app_nil_r.
Qed.

(** Whatever the matcher returns, it returns it from its continuation,
    called on the rest of the text after a word of the pattern. *)
Lemma rmatch_sound r :
  forall s g (cont : text -> captures -> option A) a,
    rmatch r s g cont = Some a ->
    exists w s' g',
      s = w ++ s' /\ matches r w g g' /\ cont s' g' = Some a.
Proof.
  induction r as [|c|r1 IH1 r2 IH2|k|k|k|r IH|name r IH];
    simpl; intros s g cont a H.
  - exists [], s, g. split; [reflexivity|]. split; [constructor|auto].
  - destruct s as [|x s]; [discriminate|].
    destruct (Ascii.eqb (lower_char x) (lower_char c)) eqn:E;
      [|discriminate].
    apply Ascii.eqb_eq in E.
    exists [x], s, g. split; [reflexivity|]. split; [now constructor|auto].
  - apply IH1 in H as (w1 & s1 & g1 & -> & M1 & H).
    apply IH2 in H as (w2 & s2 & g2 & -> & M2 & H).
    exists (w1 ++ w2), s2, g2. rewrite <- app_assoc.
    repeat split; auto. econstructor; eauto.
  - apply star_greedy_sound in H as (w & s' & -> & Hw & H).
    exists w, s', g. repeat split; auto. now constructor.
  - destruct s as [|x s]; [discriminate|].
    destruct (in_class k x) eqn:E; [|discriminate].
    apply star_greedy_sound in H as (w & s' & -> & Hw & H).
    exists (x :: w), s', g. repeat split; auto.
    constructor; [now constructor | discriminate].
  - apply star_lazy_sound in H as (w & s' & -> & Hw & H).
    exists w, s', g. repeat split; auto. now constructor.
  - destruct (rmatch r s g cont) eqn:R.
    + injection H as ->.
      apply IH in R as (w & s' & g' & -> & M & H).
      exists w, s', g'. repeat split; auto. now constructor.
    + exists [], s, g. split; [reflexivity|].
      split; [apply m_opt_none | auto].
  - apply IH in H as (w & s' & g' & -> & M & H).
    rewrite firstn_app_exact in H.
    exists w, s', (dict_set name w g'). repeat split; auto.
    now constructor.
Qed.

(** A greedy repetition before a continuation that cannot fail takes
    the longest run. *)
Lemma star_greedy_total k s (cont : text -> option A) :
  (forall s', cont s' <> None) ->
  star_greedy k s cont = cont (drop_class k s).
Proof.
  intros T; induction s as [|c s IH]; simpl; [reflexivity|].
  destruct (in_class k c); [|reflexivity].
  rewrite IH. destruct (cont (drop_class k s)) eqn:C; [reflexivity|].
  now apply T in C.
Qed.
End MatcherSound.

(** A match at the start is a word of the pattern at the start. *)
Lemma re_match_sound r s m :
  re_match r s = Some m ->
  exists w post, s = w ++ post /\ matches r w [] m.
Proof.
  unfold re_match; intros H.
  apply rmatch_sound in H as (w & s' & g' & -> & M & [= <-]).
  now exists w, s'.
Qed.

(** A successful search found a word of the pattern in the text. *)
Lemma re_search_sound r s m :
  re_search r s = Some m ->
  exists pre w post, s = pre ++ w ++ post /\ matches r w [] m.
Proof.
  induction s as [|c s IH]; simpl; intros H.
  - destruct (re_match r []) eqn:R; [|discriminate].
    injection H as ->. apply re_match_sound in R as (w & post & E & M).
    now exists [], w, post.
  - destruct (re_match r (c :: s)) eqn:R.
    + injection H as ->. apply re_match_sound in R as (w & post & E & M).
      now exists [], w, post.
    + destruct (IH H) as (pre & w & post & -> & M).
      now exists (c :: pre), w, post.
Qed.

(** ** Reading the patterns of the parser *)

Ltac inv H := inversion H; subst; clear H.

Lemma lits_inv p : forall w g g',
  matches (lits p) w g g' -> same_ci w p /\ g' = g.
Proof.
  induction p as [|c p IH]; simpl; intros w g g' H.
  - inv H. now split.
  - inv H.
    match goal with M : matches (Lit _) _ _ _ |- _ => inv M end.
    match goal with M : matches (lits _) _ _ _ |- _ =>
      apply IH in M as [E ->] end.
    split; [|reflexivity]. unfold same_ci in *; simpl. congruence.
Qed.

Lemma eps_inv w g g' : matches Eps w g g' -> w = [] /\ g' = g.
Proof. intros H; inv H; auto. Qed.

Lemma lit_inv c w g g' :
  matches (Lit c) w g g' ->
  exists x, w = [x] /\ lower_char x = lower_char c /\ g' = g.
Proof. intros H; inv H; eauto. Qed.

Lemma cat_inv r1 r2 w g g2 :
  matches (Cat r1 r2) w g g2 ->
  exists w1 w2 g1,
    w = w1 ++ w2 /\ matches r1 w1 g g1 /\ matches r2 w2 g1 g2.
Proof. intros H; inv H; eauto 6. Qed.

Lemma star_inv k w g g' : matches (Star k) w g g' -> all_in k w /\ g' = g.
Proof. intros H; inv H; auto. Qed.

Lemma plus_inv k w g g' :
  matches (Plus k) w g g' -> all_in k w /\ w <> [] /\ g' = g.
Proof. intros H; inv H; auto. Qed.

Lemma star_lazy_inv k w g g' :
  matches (StarLazy k) w g g' -> all_in k w /\ g' = g.
Proof. intros H; inv H; auto. Qed.

Lemma opt_inv r w g g' :
  matches (Opt r) w g g' -> matches r w g g' \/ (w = [] /\ g' = g).
Proof. intros H; inv H; auto. Qed.

Lemma group_inv name r w g g' :
  matches (Group name r) w g g' ->
  exists g1, matches r w g g1 /\ g' = dict_set name w g1.
Proof. intros H; inv H; eauto. Qed.

Ltac inv_matches :=
  repeat match goal with
  | H : matches (lits _) _ _ _ |- _ =>
      let E := fresh "CI" in apply lits_inv in H as [E ->]
  | H : matches (Cat _ _) _ _ _ |- _ =>
      let M1 := fresh "M" in let M2 := fresh "M" in
      apply cat_inv in H as (? & ? & ? & -> & M1 & M2)
  | H : matches Eps _ _ _ |- _ => apply eps_inv in H as [-> ->]
  | H : matches (Lit _) _ _ _ |- _ =>
      let E := fresh "L" in apply lit_inv in H as (? & -> & E & ->)
  | H : matches (Star _) _ _ _ |- _ =>
      let E := fresh "S" in apply star_inv in H as [E ->]
  | H : matches (Plus _) _ _ _ |- _ =>
      let E := fresh "P" in let N := fresh "N" in
      apply plus_inv in H as (E & N & ->)
  | H : matches (StarLazy _) _ _ _ |- _ =>
      let E := fresh "S" in apply star_lazy_inv in H as [E ->]
  | H : matches (Group _ _) _ _ _ |- _ =>
      let M := fresh "M" in apply group_inv in H as (? & M & ->)
  end.

Ltac key_neq := let E := fresh in intros E; vm_compute in E; discriminate.

Ltac get_keys :=
  unfold group;
  repeat first
    [ rewrite dict_get_set_same
    | rewrite dict_get_set_other by key_neq ].

Lemma lower_char_paren x : lower_char x = lower_char ")"%char -> x = ")"%char.
Proof.
  destruct x as [[] [] [] [] [] [] [] []]; vm_compute; congruence.
Qed.

Lemma has_clause_here kw open body c post :
  same_ci kw open -> has_clause open body c (kw ++ body ++ c :: post).
Proof. intros H; now exists [], kw, post. Qed.

Lemma has_clause_app_l p open body c w :
  has_clause open body c w -> has_clause open body c (p ++ w).
Proof.
  intros (pre & kw & post & -> & H).
  exists (p ++ pre), kw, post. now rewrite <- app_assoc.
Qed.

Ltac find_clause :=
  repeat rewrite <- app_assoc; cbn [app];
  repeat first [ apply has_clause_here; assumption | apply has_clause_app_l ].

(** A word of the pattern of global transitions: its event, its target,
    and its [DO(...)] clause when there is one. *)
Lemma pat_global_inv w m :
  matches pat_global w [] m ->
  exists ev tg,
    group (txt "event") m = Some ev /\ group (txt "target") m = Some tg /\
    (group (txt "actions") m = None \/
     exists acts, group (txt "actions") m = Some acts /\
                  has_clause (txt "DO(") acts ")"%char w).
Proof.
  unfold pat_global; cbn [seq]; intros H. inv_matches.
  match goal with M : matches (Opt _) _ _ _ |- _ =>
    apply opt_inv in M as [M | [-> ->]] end.
  - inv_matches.
    repeat match goal with E : lower_char _ = lower_char ")"%char |- _ =>
      apply lower_char_paren in E; subst end.
    do 2 eexists. split; [get_keys; reflexivity|].
    split; [get_keys; reflexivity|]. right.
    eexists. split; [get_keys; reflexivity|]. find_clause.
  - do 2 eexists. split; [get_keys; reflexivity|].
    split; [get_keys; reflexivity|]. left. get_keys. reflexivity.
Qed.

(** A word of the pattern of state transitions: its event, its target,
    and its [IF (...)] clause when there is one. *)
Lemma pat_trans_inv w m :
  matches pat_trans w [] m ->
  exists ev tg,
    group (txt "event") m = Some ev /\ group (txt "target") m = Some tg /\
    ev <> [] /\ tg <> [] /\
    (group (txt "condition") m = None \/
     exists cond, group (txt "condition") m = Some cond /\
                  has_clause (txt "(") cond ")"%char w).
Proof.
  unfold pat_trans; cbn [seq]; intros H. inv_matches.
  match goal with M : matches (Opt _) _ _ _ |- _ =>
    apply opt_inv in M as [M | [-> ->]] end.
  - inv_matches.
    repeat match goal with E : lower_char _ = lower_char ")"%char |- _ =>
      apply lower_char_paren in E; subst end.
    do 2 eexists. split; [get_keys; reflexivity|].
    split; [get_keys; reflexivity|]. do 2 (split; [assumption|]). right.
    eexists. split; [get_keys; reflexivity|]. 
    repeat rewrite <- app_assoc; cbn [app].
    do 6 apply has_clause_app_l.
    match goal with
    | |- has_clause _ _ _ (?x :: ?r) => change (x :: r) with ([x] ++ r)
    end.
    apply has_clause_here. unfold same_ci. simpl.
    match goal with L : lower_char _ = lower_char "("%char |- _ =>
      now rewrite L end.
  - do 2 eexists. split; [get_keys; reflexivity|].
    split; [get_keys; reflexivity|]. do 2 (split; [assumption|]).
    left. get_keys. reflexivity.
Qed.


(** ** Global transitions *)

(** The [groupdict()] of a match of the global pattern has its three
    named groups as keys, whether they took part or not. *)
Lemma groupdict_global m :
  groupdict pat_global m =
  [(txt "event", group (txt "event") m);
   (txt "actions", group (txt "actions") m);
   (txt "target", group (txt "target") m)].
Proof. reflexivity. Qed.

Lemma groupdict_trans m :
  groupdict pat_trans m =
  [(txt "event", group (txt "event") m);
   (txt "condition", group (txt "condition") m);
   (txt "target", group (txt "target") m)].
Proof. reflexivity. Qed.

Lemma groupdict_state m :
  groupdict pat_state m =
  [(txt "state", group (txt "state") m);
   (txt "outputs", group (txt "outputs") m)].
Proof. reflexivity. Qed.

(** What [_parse_global_transition] does on a match, by the [actions]
    group of the match. *)
Lemma parse_global_transition_match p line m ev tg :
  re_search pat_global line = Some m ->
  group (txt "event") m = Some ev ->
  group (txt "target") m = Some tg ->
  _parse_global_transition p line =
  match group (txt "actions") m with
  | Some acts =>
      Ok (with_sm p
            (add_global {| g_event := upper ev;
                           g_actions := actions_trimmed acts;
                           g_target := upper tg;
                           g_comment := _extract_comment line |} (sm p)))
  | None => Raise AttributeError
  end.
Proof.
  intros S E T. unfold _parse_global_transition. rewrite S.
  rewrite groupdict_global, E, T.
  destruct (group (txt "actions") m) as [acts|]; [|reflexivity].
  unfold actions_trimmed. rewrite <- filter_strip_map. reflexivity.
Qed.




(** ** The parser can raise *)

(** C1: the parse of a text whose GLOBAL_TRANSITIONS section holds an
    ON_EVENT line without a DO(...) clause does not complete: it raises
    [AttributeError]. *)
Theorem C1_parse_raises_without_do_clause :
  parse (dsl ["GLOBAL_TRANSITIONS:"; "ON_EVENT(RESET): -> TO(IDLE)"]%string)
        _get_initial_structure
  = Raise AttributeError.
Proof. vm_compute. reflexivity. Qed.

(** C2: a transition line without an IF(...) clause, after a FROM naming
    a declared state, gives no transition with condition [True]: the parse
    raises [AttributeError]. *)
Theorem C2_transition_without_if_raises :
  parse (dsl ["STATE_LIST:"; "A"; "B"; "TRANSITIONS:"; "FROM(A):";
              "ON_EVENT(E): -> TO(B)"]%string)
        _get_initial_structure
  = Raise AttributeError.
Proof. vm_compute. reflexivity. Qed.

(** C5: a transition line without an IF(...) clause, after a FROM naming
    a state that was never declared, is not discarded in silence: the parse
    raises [AttributeError]. *)
Theorem C5_undeclared_source_without_if_raises :
  parse (dsl ["STATE_LIST:"; "A"; "TRANSITIONS:"; "FROM(GHOST):";
              "ON_EVENT(E): -> TO(A)"]%string)
        _get_initial_structure
  = Raise AttributeError.
Proof. vm_compute. reflexivity. Qed.

(** ** STATE_LIST lines *)

Lemma take_drop_class k s : take_class k s ++ drop_class k s = s.
Proof.
  induction s as [|c s IH]; simpl; [reflexivity|].
  destruct (in_class k c); simpl; [now rewrite IH | reflexivity].
Qed.



(** A group of one or more characters of a class, before a rest that
    cannot fail, takes the longest run. *)
Lemma rmatch_group_plus_total name k rest c s g :
  (forall s' g', rmatch rest s' g' accept <> None) ->
  in_class k c = true ->
  rmatch (Cat (Group name (Plus k)) rest) (c :: s) g accept
  = rmatch rest (drop_class k s) (dict_set name (c :: take_class k s) g)
      accept.
Proof.
  intros T E. cbn [rmatch]. rewrite E.
  rewrite star_greedy_total.
  - pose proof (firstn_app_exact (c :: take_class k s) (drop_class k s))
      as F.
    cbn [app] in F. rewrite take_drop_class in F. now rewrite F.
  - intros s'. apply T.
Qed.

Lemma rmatch_group_plus_fail name k rest c s g :
  in_class k c = false ->
  rmatch (Cat (Group name (Plus k)) rest) (c :: s) g accept = None.
Proof. intros E. cbn [rmatch]. now rewrite E. Qed.

(** Blanks and an optional clause at the end of a pattern cannot fail. *)
Lemma rmatch_blank_opt_total k r s g :
  rmatch (Cat (Star k) (Cat (Opt r) Eps)) s g accept <> None.
Proof.
  cbn [rmatch]. rewrite star_greedy_total.
  - destruct (rmatch r _ g _); discriminate.
  - intros s'. destruct (rmatch r s' g _); discriminate.
Qed.

Lemma pat_state_shape :
  pat_state =
  Cat (Group (txt "state") (Plus Word))
      (Cat (Star Space) (Cat (Opt output_clause) Eps)).
Proof. reflexivity. Qed.

(** After the state name, the rest of the pattern only writes the
    [outputs] group. *)
Lemma state_rest_keeps_name s g m :
  rmatch (Cat (Star Space) (Cat (Opt output_clause) Eps)) s g accept
  = Some m ->
  group (txt "state") m = group (txt "state") g.
Proof.
  intros H. apply rmatch_sound in H as (w & s' & g' & -> & M & [= <-]).
  inv_matches.
  match goal with M : matches (Opt _) _ _ _ |- _ =>
    apply opt_inv in M as [M | [-> ->]] end; [|reflexivity].
  unfold output_clause in *; cbn [seq] in *. inv_matches.
  get_keys. reflexivity.
Qed.

Lemma re_match_state_word c s :
  isword c = true ->
  exists m, re_match pat_state (c :: s) = Some m /\
            group (txt "state") m = Some (c :: take_class Word s).
Proof.
  intros E. unfold re_match. rewrite pat_state_shape.
  fold accept.
  rewrite rmatch_group_plus_total;
    [|intros; apply rmatch_blank_opt_total | exact E].
  destruct (rmatch _ (drop_class Word s) _ accept) as [m|] eqn:R.
  - exists m. split; [reflexivity|].
    apply state_rest_keeps_name in R. rewrite R. get_keys. reflexivity.
  - now apply rmatch_blank_opt_total in R.
Qed.

Lemma re_match_state_nonword c s :
  isword c = false -> re_match pat_state (c :: s) = None.
Proof.
  intros E. unfold re_match. rewrite pat_state_shape. fold accept.
  now apply rmatch_group_plus_fail.
Qed.

(** The search for a state declaration finds the first maximal run of
    word characters, in every line that has a word character. *)
Lemma re_search_state line :
  existsb isword line = true ->
  exists m, re_search pat_state line = Some m /\
            group (txt "state") m = Some (first_word_run line).
Proof.
  induction line as [|c s IH]; [discriminate|].
  cbn [existsb re_search]. unfold first_word_run in *. cbn [skip_nonword].
  destruct (isword c) eqn:E; cbn [orb].
  - intros _. destruct (re_match_state_word c s E) as (m & R & G).
    exists m. rewrite R. split; [reflexivity|].
    rewrite G. cbn [take_class in_class]. now rewrite E.
  - intros H. rewrite (re_match_state_nonword c s E). now apply IH.
Qed.

Lemma re_search_state_none line :
  existsb isword line = false -> re_search pat_state line = None.
Proof.
  induction line as [|c s IH]; cbn [existsb re_search].
  - intros _. reflexivity.
  - destruct (isword c) eqn:E; cbn [orb]; [discriminate|].
    intros H. rewrite (re_match_state_nonword c s E). now apply IH.
Qed.


(** A STATE_LIST line with a word character writes the record of the
    line under the uppercased first word run. *)
Lemma parse_state_list_item_word p line :
  existsb isword line = true ->
  _parse_state_list_item p line =
  Ok (with_sm p
        (with_states
           (dict_set (upper (first_word_run line)) (declared_state line)
                     (states (sm p)))
           (sm p))).
Proof.
  intros W. destruct (re_search_state line W) as (m & S & G).
  unfold _parse_state_list_item, declared_state, declared_outputs.
  rewrite S, groupdict_state, G. reflexivity.
Qed.

(** A line without word characters declares nothing. *)
Lemma parse_state_list_item_noword p line :
  existsb isword line = false -> _parse_state_list_item p line = Ok p.
Proof.
  intros W. unfold _parse_state_list_item.
  now rewrite (re_search_state_none line W).
Qed.




(** ** TRANSITIONS lines *)

Lemma groupdict_trans_get m :
  dict_get (txt "condition") (groupdict pat_trans m)
  = Some (group (txt "condition") m).
Proof. reflexivity. Qed.

(** What [_parse_transitions_item] does on a transition line once a
    source state is active: it raises without an IF(...) clause; with one
    it appends under the active source state when that is a key of the
    states, and leaves the document as it is otherwise. *)
Lemma parse_transitions_item_match p line m from ev tg :
  re_match pat_from line = None ->
  current_from_state p = Some from -> from <> [] ->
  re_search pat_trans line = Some m ->
  group (txt "event") m = Some ev ->
  group (txt "target") m = Some tg ->
  _parse_transitions_item p line =
  match group (txt "condition") m with
  | None => Raise AttributeError
  | Some cond =>
      match dict_get from (states (sm p)) with
      | Some s =>
          Ok (with_sm p
                (with_states
                   (dict_set from
                      (append_transition
                         {| t_event := upper ev;
                            t_condition := strip cond;
                            t_target := upper tg;
                            t_comment := _extract_comment line |} s)
                      (states (sm p)))
                   (sm p)))
      | None => Ok p
      end
  end.
Proof.
  intros F C N S E T. unfold _parse_transitions_item.
  rewrite F, C, S. destruct from as [|c from]; [congruence|].
  cbn [truthy negb]. rewrite groupdict_trans, E, T.
  destruct (group (txt "condition") m) as [cond|]; reflexivity.
Qed.

(** Before any FROM(...) line, a line of the TRANSITIONS section that is
    not one changes nothing. *)
Lemma parse_transitions_item_no_from p line :
  re_match pat_from line = None ->
  current_from_state p = None ->
  _parse_transitions_item p line = Ok p.
Proof.
  intros F C. unfold _parse_transitions_item. now rewrite F, C.
Qed.



(** ** Validator *)

Lemma for_each_ok {X} (xs : list X) body (f : X -> list text) :
  (forall x, In x xs -> body x = Ok (f x)) ->
  for_each xs body = Ok (flat_map f xs).
Proof.
  induction xs as [|x xs IH]; simpl; intros H; [reflexivity|].
  rewrite (H x) by now left. simpl.
  rewrite IH by (intros; apply H; now right). reflexivity.
Qed.

Lemma set_mem_In x s : set_mem x s = true <-> In x s.
Proof.
  unfold set_mem. rewrite existsb_exists. split.
  - intros (y & I & E). apply text_eqb_eq in E. now subst.
  - intros I. exists x. split; [assumption | apply text_eqb_refl].
Qed.

Lemma set_diff_In x a b : In x (set_diff a b) <-> In x a /\ ~ In x b.
Proof.
  unfold set_diff. rewrite filter_In, negb_true_iff.
  rewrite <- not_true_iff_false, set_mem_In. tauto.
Qed.

Lemma is_global_target_spec d s :
  is_global_target d s = true <->
  exists g, In g (global_transitions d) /\ g_target g = s.
Proof.
  unfold is_global_target. rewrite existsb_exists.
  split; intros (g & I & E); exists g; split; auto;
    now apply text_eqb_eq.
Qed.

Lemma is_regular_target_spec d s :
  is_regular_target d s = true <->
  exists k st t,
    In (k, st) (states d) /\ In t (transitions st) /\ t_target t = s.
Proof.
  unfold is_regular_target, values. rewrite existsb_exists. split.
  - intros (st & I & E). apply in_map_iff in I as ([k st'] & <- & I).
    apply existsb_exists in E as (t & It & E). apply text_eqb_eq in E.
    now exists k, st', t.
  - intros (k & st & t & I & It & E). exists st. split.
    + apply in_map_iff. now exists (k, st).
    + apply existsb_exists. exists t. split; [assumption|].
      now apply text_eqb_eq.
Qed.

Lemma deadlockedb_spec d s : deadlockedb d s = true <-> deadlocked d s.
Proof.
  unfold deadlockedb, deadlocked, terminal, referenced.
  rewrite <- is_global_target_spec, <- is_regular_target_spec.
  destruct (dict_get s (states d)) as [st|].
  - destruct (transitions st) as [|t ts] eqn:T.
    + rewrite orb_true_iff. split; [|tauto].
      intros H. split; [now exists st | assumption].
    + split; [discriminate|]. intros [(st' & [= <-] & E) _]. congruence.
  - split; [discriminate|]. intros [(st' & E & _) _]. discriminate.
Qed.

Lemma targets_referenced d s :
  In s (get_all_target_states d) <-> referenced d s.
Proof.
  unfold get_all_target_states, referenced, values.
  rewrite in_app_iff, in_map_iff, in_flat_map. split.
  - intros [(g & E & I) | (st & I & It)].
    + left. now exists g.
    + right. apply in_map_iff in I as ([k st'] & <- & I).
      apply in_map_iff in It as (t & E & It). now exists k, st', t.
  - intros [(g & I & E) | (k & st & t & I & It & E)].
    + left. now exists g.
    + right. exists st. split.
      * apply in_map_iff. now exists (k, st).
      * apply in_map_iff. now exists t.
Qed.

Lemma deadlock_message_inj a b :
  deadlock_message a = deadlock_message b -> a = b.
Proof.
  unfold deadlock_message. intros H.
  apply app_inv_head in H. now apply app_inv_tail in H.
Qed.

(** In a list without repetition, the messages of the elements that pass
    a test hold each such element once, and no other element. *)
Lemma count_occ_messages (msg : text -> text) (keep : text -> bool) l s :
  (forall a b, msg a = msg b -> a = b) ->
  NoDup l ->
  count_occ text_eq_dec
    (flat_map (fun x => if keep x then [msg x] else []) l) (msg s)
  = if keep s && set_mem s l then 1 else 0.
Proof.
  intros Inj. induction 1 as [|x l NI ND IH]; cbn [flat_map].
  - cbn [count_occ set_mem existsb]. now rewrite andb_false_r.
  - rewrite count_occ_app, IH. unfold set_mem at 2. cbn [existsb].
    fold (set_mem s l).
    destruct (text_eq_dec x s) as [->|N].
    + rewrite text_eqb_refl.
      assert (set_mem s l = false) as ->.
      { apply not_true_iff_false. now rewrite set_mem_In. }
      rewrite andb_false_r. cbn [orb].
      destruct (keep s); cbn [count_occ andb]; [|reflexivity].
      destruct (text_eq_dec (msg s) (msg s)); [reflexivity|congruence].
    + assert (text_eqb s x = false) as ->
          by (apply text_eqb_neq; congruence).
      cbn [orb].
      destruct (keep x); cbn [count_occ]; [|reflexivity].
      destruct (text_eq_dec (msg x) (msg s)) as [E|_];
        [apply Inj in E; contradiction | reflexivity].
Qed.

Lemma undefined_state_spec d s :
  undefined_state d s <->
  referenced d s /\ dict_get s (states d) = None.
Proof.
  unfold undefined_state, get_all_defined_states.
  rewrite targets_referenced, <- dict_get_in_keys.
  destruct (dict_get s (states d)); split; intros [R H]; split; auto;
    try congruence.
  exfalso. apply H. discriminate.
Qed.

Section ValidatorFacts.
Variable set_iter : pyset -> list text.
Hypothesis set_iter_perm :
  forall s, Permutation (set_iter s) (nodup text_eq_dec s).

Lemma set_iter_In s x : In x (set_iter s) <-> In x s.
Proof.
  split; intros H.
  - apply (Permutation_in _ (set_iter_perm s)) in H.
    now apply nodup_In in H.
  - apply (Permutation_in _ (Permutation_sym (set_iter_perm s))).
    now apply nodup_In.
Qed.

Lemma set_iter_NoDup s : NoDup (set_iter s).
Proof.
  apply (Permutation_NoDup (Permutation_sym (set_iter_perm s))).
  apply NoDup_nodup.
Qed.

(** The deadlock check never raises: every name it looks up is a key. *)
Lemma find_deadlocks_eq d :
  _find_deadlocks set_iter d =
  Ok (flat_map
        (fun x => if deadlockedb d x then [deadlock_message x] else [])
        (set_iter (get_all_defined_states d))).
Proof.
  unfold _find_deadlocks. apply for_each_ok. intros x I.
  apply -> set_iter_In in I. unfold get_all_defined_states in I.
  apply <- dict_get_in_keys in I.
  unfold subscript, deadlockedb.
  destruct (dict_get x (states d)) as [st|]; [|congruence].
  cbn [bind]. destruct (transitions st); [|reflexivity].
  now destruct (is_global_target d x || is_regular_target d x).
Qed.

(** C6: the deadlock check completes, and its critiques hold the deadlock
    notice of a state exactly once when the state is defined, has an empty
    transitions list and is the target of a global transition or of a
    transition of some state; the notice of any other state, a terminal
    state that nothing references among them, is not in the critiques, and
    there is no other critique. *)
Theorem C6_one_deadlock_notice_per_referenced_terminal_state :
  forall d, exists critiques,
    _find_deadlocks set_iter d = Ok critiques /\
    (forall s, deadlocked d s ->
               count_occ text_eq_dec critiques (deadlock_message s) = 1) /\
    (forall s, ~ deadlocked d s ->
               count_occ text_eq_dec critiques (deadlock_message s) = 0) /\
    (forall c, In c critiques ->
               exists s, c = deadlock_message s /\ deadlocked d s).
Proof.
  intros d. eexists. split; [apply find_deadlocks_eq|].
  assert (C : forall s,
             count_occ text_eq_dec
               (flat_map
                  (fun x => if deadlockedb d x
                            then [deadlock_message x] else [])
                  (set_iter (get_all_defined_states d)))
               (deadlock_message s)
             = if deadlockedb d s
                  && set_mem s (set_iter (get_all_defined_states d))
               then 1 else 0).
  { intros s. apply count_occ_messages.
    - apply deadlock_message_inj.
    - apply set_iter_NoDup. }
  repeat split.
  - intros s D. rewrite C.
    assert (deadlockedb d s = true) as -> by now apply deadlockedb_spec.
    assert (set_mem s (set_iter (get_all_defined_states d)) = true) as ->.
    { apply set_mem_In, set_iter_In. unfold get_all_defined_states.
      apply dict_get_in_keys. destruct D as [(st & E & _) _]. congruence. }
    reflexivity.
  - intros s D. rewrite C.
    assert (deadlockedb d s = false) as ->.
    { apply not_true_iff_false. now rewrite deadlockedb_spec. }
    reflexivity.
  - intros c I. apply in_flat_map in I as (x & _ & I).
    destruct (deadlockedb d x) eqn:B; [|contradiction].
    destruct I as [<-|[]]. exists x. split; [reflexivity|].
    now apply deadlockedb_spec.
Qed.

End ValidatorFacts.

Lemma insertion_order_perm s :
  Permutation (insertion_order s) (nodup text_eq_dec s).
Proof. apply Permutation_refl. Qed.

(** The deadlock theorem on the door lock: one notice for the unlocked
    state, none for the spare state. *)
Lemma C6_door_lock_witness :
  (forall s, Permutation (insertion_order s) (nodup text_eq_dec s)) /\
  exists critiques,
    _find_deadlocks insertion_order door_lock = Ok critiques /\
    count_occ text_eq_dec critiques
      (deadlock_message (txt "IDLE_UNLOCKED")) = 1 /\
    count_occ text_eq_dec critiques (deadlock_message (txt "SPARE")) = 0.
Proof.
  split; [exact insertion_order_perm|].
  destruct (C6_one_deadlock_notice_per_referenced_terminal_state
              insertion_order insertion_order_perm door_lock)
    as (cs & E & One & Zero & _).
  exists cs. split; [exact E|]. split.
  - apply One. apply deadlockedb_spec. vm_compute. reflexivity.
  - apply Zero. rewrite <- deadlockedb_spec. vm_compute. discriminate.
Defined.


(** ** Comment hints *)

(** When every state and transition carries a comment, the comment check
    completes with the notices of the design document. *)
Lemma check_comment_hints_commented d :
  all_commented d -> _check_comment_hints d = Ok (comment_notices d).
Proof.
  intros H. unfold _check_comment_hints, comment_notices.
  apply for_each_ok. intros [k st] I. destruct (H k st I) as [C T].
  unfold state_notice. cbn [fst snd].
  destruct (comment st) as [c|]; [|congruence].
  cbn [py_in bind format].
  rewrite (for_each_ok _ _ (transition_notice k)).
  - destruct (contains (txt "v2") c); cbn [bind orb]; [reflexivity|].
    destruct (contains (txt "future") c); reflexivity.
  - intros t It. unfold transition_notice.
    destruct (t_comment t) as [tc|] eqn:E; [|now apply T in It].
    cbn [method bind].
    destruct (contains (txt "critical") (lower tc)); reflexivity.
Qed.

(** The scenario of the design document: one criticality notice for the
    comment [this path is CRITICAL], one future-proofing notice for the
    state comment that mentions [v2]. *)
Example comment_hints_door_lock :
  _check_comment_hints door_lock =
  Ok [future_message (txt "IDLE_LOCKED") (txt "secured, v2 adds a keypad");
      critical_message (txt "IDLE_LOCKED") (txt "KEY_ENTERED")].
Proof. vm_compute. reflexivity. Qed.

(** C8: on a document with a state that has no comment, as the parser
    builds it for a line without [#], the comment check emits no list of
    notices: it raises [TypeError], where the design document expects an
    empty contribution. *)
Theorem C8_comment_check_raises_without_comment :
  exists d,
    parse (dsl ["STATE_LIST:"; "IDLE"]%string) _get_initial_structure = Ok d /\
    map (fun item => comment (snd item)) (states d) = [None] /\
    comment_notices d = [] /\
    _check_comment_hints d = Raise TypeError.
Proof.
  eexists. split; [vm_compute; reflexivity|].
  repeat split; vm_compute; reflexivity.
Qed.

(** The same slip on transitions: a transition without a comment under a
    commented state raises [AttributeError]. *)
Example comment_check_raises_on_transition_without_comment :
  exists d,
    parse (dsl ["STATE_LIST:"; "IDLE # start"; "TRANSITIONS:"; "FROM(IDLE):";
                "ON_EVENT(GO): IF (ready) -> TO(IDLE)"]%string)
          _get_initial_structure = Ok d /\
    comment_notices d = [] /\
    _check_comment_hints d = Raise AttributeError.
Proof.
  eexists. split; [vm_compute; reflexivity|].
  split; vm_compute; reflexivity.
Qed.

(** ** Redeclaration *)


Example redeclaration_erases_transition :
  exists d,
    parse (dsl ["STATE_LIST:"; "A"; "TRANSITIONS:"; "FROM(A):";
                "ON_EVENT(E): IF (x) -> TO(B)";
                "STATE_LIST:"; "A [Output: X=1]"]%string)
          _get_initial_structure = Ok d /\
    states d =
    [(txt "A", {| outputs := [(txt "X", txt "1")]; comment := None;
                  transitions := [] |})].
Proof. eexists. split; vm_compute; reflexivity. Qed.

(** ** Round trip through the file *)

(** The string scanner reads back one encoded character. *)
Lemma scanstring_encode_char c tail :
  scanstring (encode_char c ++ tail) = cons_char c (scanstring tail).
Proof.
  destruct c as [[] [] [] [] [] [] [] []]; reflexivity.
Qed.

Lemma scanstring_encode s rest :
  scanstring (flat_map encode_char s ++ quote :: rest) = Some (s, rest).
Proof.
  induction s as [|c s IH]; [reflexivity|].
  cbn [flat_map]. rewrite <- app_assoc, scanstring_encode_char, IH.
  reflexivity.
Qed.

Lemma skip_ws_spaces n s : skip_ws (repeat " "%char n ++ s) = skip_ws s.
Proof. induction n as [|n IH]; [reflexivity | exact IH]. Qed.

Lemma skip_ws_indent n s : skip_ws (newline_indent n ++ s) = skip_ws s.
Proof. unfold newline_indent. cbn [app skip_ws]. apply skip_ws_spaces. Qed.

Lemma skip_ws_head c r : is_ws c = false -> skip_ws (c :: r) = c :: r.
Proof. intros H. cbn [skip_ws]. now rewrite H. Qed.

Lemma length_newline_indent n : 1 <= List.length (newline_indent n).
Proof. unfold newline_indent. cbn [List.length]. lia. Qed.

Lemma join_cons2 sep (a b : text) l :
  join sep (a :: b :: l) = a ++ sep ++ join sep (b :: l).
Proof. reflexivity. Qed.

Lemma encode_string_head s : encode_string s = quote :: flat_map encode_char s ++ [quote].
Proof. reflexivity. Qed.

(** An encoded value starts with a character that is neither a blank nor
    a closing bracket. *)
Lemma encode_head level v :
  exists c r, encode level v = c :: r /\ head_ok c.
Proof.
  unfold head_ok.
  destruct v as [|[]|s|[|x xs]|[|kv kvs]]; cbn [encode];
    try (do 2 eexists; split; [reflexivity | repeat split; reflexivity]).
Qed.

Lemma head_ok_quote : head_ok quote.
Proof. repeat split; reflexivity. Qed.

(** On a list of pairs with each key once, [dict(pairs)] is the list. *)
Lemma dict_set_absent {V} k (v : V) d :
  ~ In k (keys d) -> dict_set k v d = d ++ [(k, v)].
Proof.
  induction d as [|[k0 v0] d IH]; simpl; [reflexivity|].
  destruct (text_eq_dec k k0) as [->|N]; [tauto|].
  intros H. rewrite IH; tauto.
Qed.

Lemma dict_of_pairs_acc {V} (pairs acc : list (text * V)) :
  NoDup (keys (acc ++ pairs)) ->
  fold_left (fun d kv => dict_set (fst kv) (snd kv) d) pairs acc
  = acc ++ pairs.
Proof.
  revert acc. induction pairs as [|[k v] ps IH]; intros acc H; simpl.
  - now rewrite app_nil_r.
  - rewrite dict_set_absent.
    + rewrite IH; rewrite <- app_assoc; [reflexivity | exact H].
    + unfold keys in *. rewrite map_app in H. simpl in H.
      apply NoDup_remove_2 in H. intros I. apply H.
      apply in_or_app. now left.
Qed.

Lemma dict_of_pairs_nodup {V} (pairs : list (text * V)) :
  NoDup (keys pairs) -> dict_of_pairs pairs = pairs.
Proof. intros H. unfold dict_of_pairs. now rewrite dict_of_pairs_acc. Qed.

(** The steps of the scanner on the first character of a value. *)
Lemma scan_once_string f r :
  scan_once (S f) (quote :: r) =
  match scanstring r with
  | Some (x, rest) => Some (JStr x, rest)
  | None => None
  end.
Proof. reflexivity. Qed.

Lemma scan_once_array f n c r :
  head_ok c ->
  scan_once (S f) ("["%char :: newline_indent n ++ c :: r) =
  match array_items f (c :: r) with
  | Some (items, rest) => Some (JArr items, rest)
  | None => None
  end.
Proof.
  intros (W & A & _).
  change (scan_once (S f) ("["%char :: newline_indent n ++ c :: r))
    with (match skip_ws (newline_indent n ++ c :: r) with
          | c1 :: r1 =>
              if code c1 =? 93 then Some (JArr [], r1)
              else
                match array_items f (c1 :: r1) with
                | Some (items, rest) => Some (JArr items, rest)
                | None => None
                end
          | [] => None
          end).
  rewrite skip_ws_indent, skip_ws_head by exact W. now rewrite A.
Qed.

Lemma scan_once_object f n c r :
  head_ok c ->
  scan_once (S f) ("{"%char :: newline_indent n ++ c :: r) =
  match object_items f (c :: r) with
  | Some (pairs, rest) => Some (JObj (dict_of_pairs pairs), rest)
  | None => None
  end.
Proof.
  intros (W & _ & O).
  change (scan_once (S f) ("{"%char :: newline_indent n ++ c :: r))
    with (match skip_ws (newline_indent n ++ c :: r) with
          | c1 :: r1 =>
              if code c1 =? 125 then Some (JObj [], r1)
              else
                match object_items f (c1 :: r1) with
                | Some (pairs, rest) =>
                    Some (JObj (dict_of_pairs pairs), rest)
                | None => None
                end
          | [] => None
          end).
  rewrite skip_ws_indent, skip_ws_head by exact W. now rewrite O.
Qed.

Lemma array_items_step f s :
  array_items (S f) s =
  match scan_once f s with
  | Some (v, rest) =>
      match skip_ws rest with
      | c :: r =>
          if code c =? 93 then Some ([v], r)
          else if code c =? 44 then
            match array_items f (skip_ws r) with
            | Some (vs, rest') => Some (v :: vs, rest')
            | None => None
            end
          else None
      | [] => None
      end
  | None => None
  end.
Proof. reflexivity. Qed.

Lemma object_items_quote f r :
  object_items (S f) (quote :: r) =
  match scanstring r with
  | Some (key, rest) =>
      match skip_ws rest with
      | c1 :: r1 =>
          if code c1 =? 58 then
            match scan_once f (skip_ws r1) with
            | Some (v, rest1) =>
                match skip_ws rest1 with
                | c2 :: r2 =>
                    if code c2 =? 125 then Some ([(key, v)], r2)
                    else if code c2 =? 44 then
                      match object_items f (skip_ws r2) with
                      | Some (kvs, rest2) => Some ((key, v) :: kvs, rest2)
                      | None => None
                      end
                    else None
                | [] => None
                end
            | None => None
            end
          else None
      | [] => None
      end
  | None => None
  end.
Proof. reflexivity. Qed.

Lemma object_items_step f k r :
  object_items (S f) (encode_string k ++ txt ": " ++ r) =
  match scan_once f (skip_ws r) with
  | Some (v, rest1) =>
      match skip_ws rest1 with
      | c2 :: r2 =>
          if code c2 =? 125 then Some ([(k, v)], r2)
          else if code c2 =? 44 then
            match object_items f (skip_ws r2) with
            | Some (kvs, rest2) => Some ((k, v) :: kvs, rest2)
            | None => None
            end
          else None
      | [] => None
      end
  | None => None
  end.
Proof.
  rewrite encode_string_head. cbn [app]. rewrite <- app_assoc. cbn [app].
  rewrite object_items_quote, scanstring_encode. reflexivity.
Qed.

Lemma encode_arr level x xs :
  encode level (JArr (x :: xs)) =
  "["%char :: newline_indent (S level)
  ++ join (item_separator (S level)) (map (encode (S level)) (x :: xs))
  ++ newline_indent level ++ txt "]".
Proof. reflexivity. Qed.

Lemma encode_obj level kv kvs :
  encode level (JObj (kv :: kvs)) =
  "{"%char :: newline_indent (S level)
  ++ join (item_separator (S level))
          (map (encode_member (S level)) (kv :: kvs))
  ++ newline_indent level ++ txt "}".
Proof. reflexivity. Qed.

Lemma length_item_separator level :
  2 <= List.length (item_separator level).
Proof.
  unfold item_separator. rewrite length_app.
  pose proof (length_newline_indent level). cbn [txt list_ascii_of_string List.length]. lia.
Qed.

Lemma join_encode_head sep level x xs tail :
  exists c r,
    join sep (map (encode level) (x :: xs)) ++ tail = c :: r /\ head_ok c.
Proof.
  destruct (encode_head level x) as (c & r & E & H).
  destruct xs as [|y ys]; cbn [map]; [cbn [join]|rewrite join_cons2];
    rewrite E; do 2 eexists; (split; [reflexivity | exact H]).
Qed.

Lemma join_member_head sep level kv kvs tail :
  exists r,
    join sep (map (encode_member level) (kv :: kvs)) ++ tail = quote :: r.
Proof.
  destruct kvs as [|y ys]; cbn [map]; [cbn [join]|rewrite join_cons2];
    unfold encode_member at 1; rewrite encode_string_head;
    eexists; reflexivity.
Qed.

(** The loop of an array reads back the items of an array. *)
Lemma array_items_encode xs :
  forall x level level' rest f,
    Forall scans (x :: xs) ->
    List.length (join (item_separator level) (map (encode level) (x :: xs)))
    < f ->
    array_items f
      (join (item_separator level) (map (encode level) (x :: xs))
       ++ newline_indent level' ++ "]"%char :: rest)
    = Some (x :: xs, rest).
Proof.
  induction xs as [|y ys IH]; intros x level level' rest f Hs L;
    (destruct f as [|f]; [lia|]); rewrite array_items_step;
    inversion Hs as [|? ? Hx Hxs]; subst.
  - cbn [map join] in L |- *. rewrite (Hx level _ f) by lia.
    rewrite skip_ws_indent. reflexivity.
  - cbn [map] in L |- *. rewrite join_cons2 in L |- *.
    rewrite !length_app in L. rewrite <- !app_assoc.
    rewrite (Hx level _ f) by lia.
    unfold item_separator at 1. cbn [app txt list_ascii_of_string].
    rewrite skip_ws_head by reflexivity.
    replace (code ","%char =? 93) with false by reflexivity.
    replace (code ","%char =? 44) with true by reflexivity.
    rewrite skip_ws_indent.
    change (encode level y :: map (encode level) ys)
      with (map (encode level) (y :: ys)).
    destruct (join_encode_head (item_separator level) level y ys
                (newline_indent level' ++ "]"%char :: rest))
      as (c & r & E & (W & _)).
    rewrite E, skip_ws_head by exact W. rewrite <- E.
    rewrite IH; [reflexivity | exact Hxs |].
    pose proof (length_item_separator level). cbn [map]. lia.
Qed.

Lemma skip_ws_encode level v tail :
  skip_ws (encode level v ++ tail) = encode level v ++ tail.
Proof.
  destruct (encode_head level v) as (c & r & E & (W & _)).
  rewrite E. cbn [app]. now apply skip_ws_head.
Qed.

Lemma length_encode_member level k v :
  List.length (encode_member level (k, v))
  = List.length (encode_string k) + 2 + List.length (encode level v).
Proof.
  unfold encode_member. cbn [fst snd]. rewrite !length_app.
  cbn [txt list_ascii_of_string List.length]. lia.
Qed.

(** The loop of an object reads back the members of an object. *)
Lemma object_items_encode kvs :
  forall kv level level' rest f,
    Forall (fun kv => scans (snd kv)) (kv :: kvs) ->
    List.length
      (join (item_separator level) (map (encode_member level) (kv :: kvs)))
    < f ->
    object_items f
      (join (item_separator level) (map (encode_member level) (kv :: kvs))
       ++ newline_indent level' ++ "}"%char :: rest)
    = Some (kv :: kvs, rest).
Proof.
  induction kvs as [|y ys IH]; intros [k v] level level' rest f Hs L;
    (destruct f as [|f]; [lia|]);
    inversion Hs as [|? ? Hx Hxs]; subst; cbn [snd] in Hx.
  - cbn [map join] in L |- *. rewrite length_encode_member in L.
    unfold encode_member. cbn [fst snd]. rewrite <- !app_assoc.
    rewrite object_items_step, skip_ws_encode.
    rewrite (Hx level _ f) by lia.
    rewrite skip_ws_indent. reflexivity.
  - cbn [map] in L |- *. rewrite join_cons2 in L |- *.
    rewrite !length_app, length_encode_member in L.
    unfold encode_member at 1. cbn [fst snd]. rewrite <- !app_assoc.
    rewrite object_items_step, skip_ws_encode.
    rewrite (Hx level _ f) by lia.
    unfold item_separator at 1. cbn [app txt list_ascii_of_string].
    rewrite skip_ws_head by reflexivity.
    replace (code ","%char =? 125) with false by reflexivity.
    replace (code ","%char =? 44) with true by reflexivity.
    rewrite skip_ws_indent.
    change (encode_member level y :: map (encode_member level) ys)
      with (map (encode_member level) (y :: ys)).
    destruct (join_member_head (item_separator level) level y ys
                (newline_indent level' ++ "}"%char :: rest)) as (r & E).
    rewrite E, skip_ws_head by reflexivity. rewrite <- E.
    rewrite IH; [reflexivity | exact Hxs |].
    pose proof (length_item_separator level). cbn [map]. lia.
Qed.

(** The scanner reads back every encoded value whose objects have each
    key once. *)
Lemma scan_encode v : wf_json v -> scans v.
Proof.
  induction v as [|b|s|items IH|members IH] using json_ind;
    intros W level rest f L.
  - destruct f as [|f]; [cbn in L; lia | reflexivity].
  - destruct f as [|f]; [destruct b; cbn in L; lia|].
    destruct b; reflexivity.
  - destruct f as [|f]; [cbn in L; lia|].
    cbn [encode]. rewrite encode_string_head. cbn [app].
    rewrite <- app_assoc. cbn [app].
    now rewrite scan_once_string, scanstring_encode.
  - inversion W as [| | |? Wi|]; subst.
    destruct items as [|x xs].
    + destruct f as [|f]; [cbn in L; lia | reflexivity].
    + assert (S : Forall scans (x :: xs)).
      { apply Forall_forall. intros y I.
        rewrite Forall_forall in IH, Wi. now apply IH, Wi. }
      rewrite encode_arr in L |- *.
      cbn [List.length] in L. rewrite !length_app in L.
      pose proof (length_newline_indent (Datatypes.S level)).
      destruct f as [|f]; [lia|].
      cbn [app]. rewrite <- !app_assoc.
      destruct (join_encode_head (item_separator (Datatypes.S level))
                  (Datatypes.S level) x xs
                  (newline_indent level ++ txt "]" ++ rest))
        as (c & r & E & H').
      rewrite E, scan_once_array by exact H'. rewrite <- E.
      change (txt "]" ++ rest) with ("]"%char :: rest).
      rewrite array_items_encode; [reflexivity | exact S | lia].
  - inversion W as [| | | |? Wk Wi]; subst.
    destruct members as [|kv kvs].
    + destruct f as [|f]; [cbn in L; lia | reflexivity].
    + assert (S : Forall (fun kv => scans (snd kv)) (kv :: kvs)).
      { apply Forall_forall. intros y I.
        rewrite Forall_forall in IH, Wi. now apply IH, Wi. }
      rewrite encode_obj in L |- *.
      cbn [List.length] in L. rewrite !length_app in L.
      pose proof (length_newline_indent (Datatypes.S level)).
      destruct f as [|f]; [lia|].
      cbn [app]. rewrite <- !app_assoc.
      destruct (join_member_head (item_separator (Datatypes.S level))
                  (Datatypes.S level) kv kvs
                  (newline_indent level ++ txt "}" ++ rest))
        as (r & E).
      rewrite E, scan_once_object by exact head_ok_quote. rewrite <- E.
      change (txt "}" ++ rest) with ("}"%char :: rest).
      rewrite object_items_encode; [| exact S | lia].
      now rewrite dict_of_pairs_nodup.
Qed.

(** [json.loads(json.dumps(v, indent=2))] is [v]. *)
Lemma json_loads_dumps v : wf_json v -> json_loads (json_dumps v) = Some v.
Proof.
  intros W. unfold json_loads, json_dumps.
  rewrite <- (app_nil_r (encode 0 v)) at 2.
  rewrite skip_ws_encode, (scan_encode W) by lia.
  reflexivity.
Qed.

(** The document as a Python value is a well-formed JSON value. *)
Lemma keys_map_snd {V W} (f : V -> W) (d : dict V) :
  keys (map (fun kv => (fst kv, f (snd kv))) d) = keys d.
Proof.
  unfold keys. rewrite map_map. apply map_ext. now intros [k v].
Qed.

Lemma wf_str_dict d : NoDup (keys d) -> wf_json (str_dict_json d).
Proof.
  intros N. unfold str_dict_json. constructor.
  - now rewrite keys_map_snd.
  - apply Forall_forall. intros kv I.
    apply in_map_iff in I as (x & <- & _). constructor.
Qed.

Lemma wf_str_list l : wf_json (JArr (map JStr l)).
Proof.
  constructor. apply Forall_forall. intros v I.
  apply in_map_iff in I as (x & <- & _). constructor.
Qed.

Lemma wf_opt_json o : wf_json (opt_json o).
Proof. destruct o; constructor. Qed.

Ltac distinct_keys :=
  repeat (constructor; [cbn [In keys map fst]; intuition discriminate|]);
  constructor.

Ltac each_member :=
  repeat (apply Forall_cons; [cbn [snd]|]); [..|apply Forall_nil].

Lemma wf_list {X} (f : X -> json) l :
  (forall x, wf_json (f x)) -> wf_json (JArr (map f l)).
Proof.
  intros H. constructor. apply Forall_forall. intros v I.
  apply in_map_iff in I as (x & <- & _). apply H.
Qed.

Lemma wf_transition_json t : wf_json (transition_json t).
Proof.
  unfold transition_json. constructor; [distinct_keys|].
  each_member; first [apply wf_str | apply wf_opt_json].
Qed.

Lemma wf_global_json g : wf_json (global_json g).
Proof.
  unfold global_json. constructor; [distinct_keys|].
  each_member; first [apply wf_str | apply wf_str_list | apply wf_opt_json].
Qed.

Lemma wf_state_json s :
  NoDup (keys (outputs s)) -> wf_json (state_json s).
Proof.
  intros N. unfold state_json. constructor; [distinct_keys|].
  each_member.
  - now apply wf_str_dict.
  - apply wf_opt_json.
  - apply wf_list, wf_transition_json.
Qed.

Lemma wf_to_json d : unique_keys d -> wf_json (to_json d).
Proof.
  intros (Hh & Hs & Ho). unfold to_json. constructor; [distinct_keys|].
  each_member.
  - now apply wf_str_dict.
  - apply wf_str_list.
  - apply wf_list, wf_global_json.
  - constructor.
    + now rewrite keys_map_snd.
    + apply Forall_forall. intros kv I.
      apply in_map_iff in I as (x & <- & I). cbn [snd].
      apply wf_state_json. rewrite Forall_forall in Ho. now apply Ho.
Qed.
(** Two documents with the same Python value are the same document. *)
Lemma map_inj {X Y} (f : X -> Y) :
  (forall a b, f a = f b -> a = b) ->
  forall l l', map f l = map f l' -> l = l'.
Proof.
  intros Inj. induction l as [|a l IH]; intros [|b l'] H;
    try discriminate; [reflexivity|].
  injection H as H1 H2. f_equal; auto.
Qed.

Lemma JStr_inj a b : JStr a = JStr b -> a = b.
Proof. now intros [= ->]. Qed.

Lemma opt_json_inj a b : opt_json a = opt_json b -> a = b.
Proof. destruct a, b; simpl; congruence. Qed.

Lemma str_pairs_inj (a b : dict text) :
  map (fun kv => (fst kv, JStr (snd kv))) a
  = map (fun kv => (fst kv, JStr (snd kv))) b -> a = b.
Proof.
  apply map_inj. intros [k v] [k' v']; simpl. congruence.
Qed.

Lemma transition_json_inj a b :
  transition_json a = transition_json b -> a = b.
Proof.
  destruct a, b. unfold transition_json; cbn.
  intros [= -> -> -> H]. apply opt_json_inj in H. now subst.
Qed.

Lemma global_json_inj a b : global_json a = global_json b -> a = b.
Proof.
  destruct a, b. unfold global_json; cbn.
  intros [= -> A -> H]. apply opt_json_inj in H.
  apply (map_inj _ JStr_inj) in A. now subst.
Qed.

Lemma state_json_inj a b : state_json a = state_json b -> a = b.
Proof.
  destruct a, b. unfold state_json; cbn [outputs comment transitions].
  intros [= O C T]. apply str_pairs_inj in O. apply opt_json_inj in C.
  apply (map_inj _ transition_json_inj) in T. now subst.
Qed.

Lemma to_json_inj a b : to_json a = to_json b -> a = b.
Proof.
  destruct a, b. unfold to_json;
    cbn [header assumptions global_transitions states].
  intros [= H A G S]. apply str_pairs_inj in H.
  apply (map_inj _ JStr_inj) in A. apply (map_inj _ global_json_inj) in G.
  assert (states0 = states1).
  { revert S. apply map_inj. intros [k v] [k' v']; cbn [fst snd].
    intros E. assert (K : k = k') by congruence.
    assert (J : state_json v = state_json v') by congruence.
    apply state_json_inj in J. now subst. }
  now subst.
Qed.

(** C9: a document saved in the canonical format and loaded again is the
    same document: [load] after [save] gives the Python value of the
    document saved, and only that document has this value, so the two
    agree field for field. *)
Theorem C9_save_load_round_trip :
  forall d,
    unique_keys d ->
    load (save d) = to_json d /\
    (forall d', load (save d) = to_json d' -> d' = d).
Proof.
  intros d U.
  assert (E : load (save d) = to_json d).
  { unfold load, save. now rewrite json_loads_dumps by now apply wf_to_json. }
  split; [exact E|]. intros d' H. rewrite E in H. symmetry.
  now apply to_json_inj.
Qed.

(** The round trip of the door lock. *)
Lemma C9_door_lock_witness :
  unique_keys door_lock /\ load (save door_lock) = to_json door_lock.
Proof.
  assert (U : unique_keys door_lock).
  { unfold unique_keys, door_lock;
      cbn [header states keys map fst snd outputs].
    split; [distinct_keys|]. split; [distinct_keys|].
    repeat (constructor; [cbn [snd outputs keys map fst]; distinct_keys|]).
    constructor. }
  split; [exact U|].
  exact (proj1 (C9_save_load_round_trip U)).
Defined.

(* ================================================================== *)
(** * Further properties of the code *)

(** ** The writes of the parser *)

Lemma upper_char_idem c : upper_char (upper_char c) = upper_char c.
Proof. destruct c as [[] [] [] [] [] [] [] []]; reflexivity. Qed.

Lemma upper_is_upper s : is_upper (upper s).
Proof.
  unfold is_upper, upper. rewrite map_map. apply map_ext.
  intros c. apply upper_char_idem.
Qed.

Lemma writes_one d d' : write d d' -> writes d d'.
Proof. intros W. eapply writes_cons; [exact W | apply writes_nil]. Qed.

Lemma writes_trans d1 d2 d3 : writes d1 d2 -> writes d2 d3 -> writes d1 d3.
Proof.
  induction 1 as [|a b c W _ IH]; [auto|].
  intros H. eapply writes_cons; [exact W | auto].
Qed.

Lemma writes_snoc d1 d2 d3 : writes d1 d2 -> write d2 d3 -> writes d1 d3.
Proof.
  intros H W. eapply writes_trans; [exact H | now apply writes_one].
Qed.

(** A match of a header pattern has its group 1. *)
Lemma pat_header_group keyword line m :
  re_match (pat_header keyword) line = Some m ->
  exists v, group (txt "1") m = Some v.
Proof.
  intros H. apply re_match_sound in H as (w & post & -> & M).
  unfold pat_header in M; cbn [seq] in M. inv_matches.
  eexists. get_keys. reflexivity.
Qed.

(** A header directive does nothing or applies its write to the trimmed
    text; it does not raise. *)
Lemma header_directive_cases keyword line f d :
  header_directive keyword line f d = Ok d \/
  exists v, header_directive keyword line f d = Ok (f v d).
Proof.
  unfold header_directive.
  destruct (re_match (pat_header keyword) line) as [m|] eqn:R; [|now left].
  destruct (pat_header_group _ _ R) as (v & G). rewrite G.
  right. exists (strip v). reflexivity.
Qed.

Lemma parse_header_writes p line :
  exists d', _parse_header p line = Ok (with_sm p d') /\ writes (sm p) d'.
Proof.
  unfold _parse_header.
  destruct (header_directive_cases (txt "FEATURE") line
              (set_header (txt "feature")) (sm p)) as [E1 | (v1 & E1)];
    rewrite E1; cbn [bind];
    match goal with
    | |- context [header_directive (txt "INTENT") line _ ?d1] =>
        destruct (header_directive_cases (txt "INTENT") line
                    (set_header (txt "intent")) d1) as [E2 | (v2 & E2)];
        rewrite E2; cbn [bind]
    end;
    match goal with
    | |- context [header_directive (txt "ASSUME") line _ ?d2] =>
        destruct (header_directive_cases (txt "ASSUME") line
                    add_assumption d2) as [E3 | (v3 & E3)];
        rewrite E3; cbn [bind]
    end;
    eexists; (split; [reflexivity|]);
    repeat match goal with
    | |- writes ?a ?a => apply writes_nil
    | |- writes _ (add_assumption _ _) =>
        eapply writes_snoc; [|apply w_assume]
    | |- writes _ (set_header _ _ _) =>
        eapply writes_snoc; [|apply w_header; tauto]
    end.
Qed.

Lemma NoDup_keys_dict_set {V} k (v : V) d :
  NoDup (keys d) -> NoDup (keys (dict_set k v d)).
Proof.
  intros N. destruct (in_dec text_eq_dec k (keys d)) as [I|I].
  - now rewrite keys_dict_set_present.
  - rewrite keys_dict_set_absent by exact I.
    apply NoDup_app; [exact N | repeat constructor; auto |].
    intros x Hx [<-|[]]. contradiction.
Qed.

Lemma fold_outputs_NoDup parts : forall acc : dict text,
  NoDup (keys acc) ->
  NoDup (keys (fold_left
                 (fun d part =>
                    match split "="%char part with
                    | [k; v] => dict_set (strip k) (strip v) d
                    | _ => d
                    end) parts acc)).
Proof.
  induction parts as [|part parts IH]; intros acc N; [exact N|].
  cbn [fold_left]. apply IH.
  destruct (split "="%char part) as [|k [|v [|? ?]]]; auto.
  now apply NoDup_keys_dict_set.
Qed.

Lemma parse_outputs_NoDup o : NoDup (keys (parse_outputs o)).
Proof. apply fold_outputs_NoDup. constructor. Qed.

Lemma declared_outputs_NoDup line : NoDup (keys (declared_outputs line)).
Proof.
  unfold declared_outputs.
  destruct (re_search pat_state line) as [m|]; [|constructor].
  destruct (group (txt "outputs") m) as [[|c o]|];
    first [apply parse_outputs_NoDup | constructor].
Qed.

Lemma parse_global_writes p line p' :
  _parse_global_transition p line = Ok p' -> writes (sm p) (sm p').
Proof.
  intros H. destruct (re_search pat_global line) as [m|] eqn:S.
  - destruct (re_search_sound _ _ S) as (pre & w & post & L & M).
    destruct (pat_global_inv M) as (ev & tg & E & T & _).
    rewrite (parse_global_transition_match p _ S E T) in H.
    destruct (group (txt "actions") m); [|discriminate].
    injection H as <-. cbn [sm with_sm].
    apply writes_one, w_global; apply upper_is_upper.
  - unfold _parse_global_transition in H. rewrite S in H.
    injection H as <-. apply writes_nil.
Qed.

Lemma parse_state_list_writes p line p' :
  _parse_state_list_item p line = Ok p' -> writes (sm p) (sm p').
Proof.
  intros H. destruct (existsb isword line) eqn:W.
  - rewrite parse_state_list_item_word in H by exact W.
    injection H as <-. cbn [sm with_sm].
    apply writes_one, w_state.
    + apply upper_is_upper.
    + reflexivity.
    + apply declared_outputs_NoDup.
  - rewrite parse_state_list_item_noword in H by exact W.
    injection H as <-. apply writes_nil.
Qed.

Lemma parse_transitions_writes p line p' :
  _parse_transitions_item p line = Ok p' -> writes (sm p) (sm p').
Proof.
  intros H. destruct (re_match pat_from line) as [fm|] eqn:F.
  - unfold _parse_transitions_item in H. rewrite F in H.
    destruct (group (txt "state") fm); cbn in H; [|discriminate].
    injection H as <-. apply writes_nil.
  - destruct (current_from_state p) as [[|c from]|] eqn:C;
      try (unfold _parse_transitions_item in H; rewrite F, C in H;
           injection H as <-; apply writes_nil).
    destruct (re_search pat_trans line) as [m|] eqn:S.
    + destruct (re_search_sound _ _ S) as (pre & w & post & L & M).
      destruct (pat_trans_inv M) as (ev & tg & E & T & _).
      rewrite (parse_transitions_item_match p _ F C (not_eq_sym (@nil_cons _ c from)) S E T) in H.
      destruct (group (txt "condition") m); [|discriminate].
      destruct (dict_get (c :: from) (states (sm p))) as [s|] eqn:G;
        injection H as <-; [|apply writes_nil].
      cbn [sm with_sm]. apply writes_one, w_transition;
        [exact G | apply upper_is_upper | apply upper_is_upper].
    + unfold _parse_transitions_item in H. rewrite F, C, S in H.
      injection H as <-. apply writes_nil.
Qed.

Lemma parse_line_writes p raw p' :
  parse_line p raw = Ok p' -> writes (sm p) (sm p').
Proof.
  unfold parse_line. intros H.
  destruct (negb (nonempty (strip raw))).
  { injection H as <-. apply writes_nil. }
  destruct (startswith (txt "#") (strip raw)).
  { destruct (parse_header_writes p (strip raw)) as (d' & E & W).
    rewrite E in H. injection H as <-. exact W. }
  destruct (_is_section_header (strip raw)).
  { injection H as <-. apply writes_nil. }
  unfold _parse_line_in_section in H.
  destruct (current_section p) as [sec|];
    [|injection H as <-; apply writes_nil].
  destruct (text_eqb sec (txt "GLOBAL_TRANSITIONS"));
    [now apply parse_global_writes in H|].
  destruct (text_eqb sec (txt "STATE_LIST"));
    [now apply parse_state_list_writes in H|].
  destruct (text_eqb sec (txt "TRANSITIONS"));
    [now apply parse_transitions_writes in H|].
  injection H as <-. apply writes_nil.
Qed.

Lemma parse_lines_writes lines : forall p p',
  parse_lines p lines = Ok p' -> writes (sm p) (sm p').
Proof.
  induction lines as [|l ls IH]; intros p p' H; cbn [parse_lines] in H.
  - injection H as <-. apply writes_nil.
  - destruct (parse_line p l) as [p1|e] eqn:E; [|discriminate].
    cbn [bind] in H. eapply writes_trans.
    + eapply parse_line_writes; exact E.
    + now apply IH.
Qed.

(** Whatever a completed parse did to the document, it did by writes:
    header keys [feature] and [intent], assumptions and global transitions
    at the end, state records, transitions at the end of declared
    states. *)
Lemma parse_writes dsl_text d d' :
  parse dsl_text d = Ok d' -> writes d d'.
Proof.
  unfold parse. intros H.
  destruct (parse_lines _ _) as [p|e] eqn:E; [|discriminate].
  injection H as <-. now apply parse_lines_writes in E.
Qed.

(** ** What every completed parse keeps *)

Lemma write_unique_keys d d' : write d d' -> unique_keys d -> unique_keys d'.
Proof.
  intros W (Hh & Hs & Ho).
  destruct W as [k v d _|v d|g d _ _|n st d _ _ No|from s t d G _ _];
    unfold unique_keys;
    cbn [header states set_header add_assumption add_global with_states];
    repeat split; auto using NoDup_keys_dict_set.
  - clear Hh Hs. induction (states d) as [|[k0 v0] l IH]; cbn [dict_set].
    + repeat constructor. exact No.
    + inversion Ho as [|? ? H0 Hl]; subst.
      destruct (text_eq_dec n k0); constructor; auto.
  - clear Hh Hs. revert G.
    induction (states d) as [|[k0 v0] l IH]; cbn [dict_set dict_get];
      [discriminate|].
    inversion Ho as [|? ? H0 Hl]; subst.
    destruct (text_eq_dec from k0).
    + intros [= ->]. constructor; auto.
    + intros G. constructor; auto.
Qed.

Lemma writes_unique_keys d d' :
  writes d d' -> unique_keys d -> unique_keys d'.
Proof.
  induction 1 as [|a b c W _ IH]; [auto|].
  intros U. apply IH. eapply write_unique_keys; eauto.
Qed.

Lemma parse_unique_keys dsl_text d d' :
  unique_keys d -> parse dsl_text d = Ok d' -> unique_keys d'.
Proof.
  intros U H. eapply writes_unique_keys; [|exact U].
  eapply parse_writes; exact H.
Qed.

Lemma unique_keys_initial : unique_keys _get_initial_structure.
Proof. repeat split; constructor. Qed.

(** X2: every document that a completed parse builds from the initial
    structure is read back by [load] as [save] wrote it. *)
Theorem X2_parsed_document_round_trip :
  forall dsl_text d,
    parse dsl_text _get_initial_structure = Ok d ->
    load (save d) = to_json d.
Proof.
  intros t d H. unfold load, save.
  rewrite json_loads_dumps; [reflexivity|].
  apply wf_to_json. eapply parse_unique_keys; [|exact H].
  apply unique_keys_initial.
Qed.

Lemma X2_round_trip_witness :
  let dsl_text :=
    dsl ["# FEATURE: lock"; "STATE_LIST:"; "a [Output: X=1] # first";
         "TRANSITIONS:"; "FROM(a):"; "ON_EVENT(go): IF (x) -> TO(a)"]%string in
  exists d,
    parse dsl_text _get_initial_structure = Ok d /\
    load (save d) = to_json d.
Proof.
  intros t. eexists. split; [vm_compute; reflexivity|].
  apply (X2_parsed_document_round_trip t). vm_compute. reflexivity.
Defined.

Lemma Forall_dict_set {V} (P : text * V -> Prop) k v (d : dict V) :
  Forall P d -> P (k, v) -> Forall P (dict_set k v d).
Proof.
  intros F H. induction d as [|[k0 v0] d IH]; cbn [dict_set].
  - now constructor.
  - inversion F as [|? ? H0 Hd]; subst.
    destruct (text_eq_dec k k0) as [->|N]; constructor; auto.
Qed.

Lemma write_normalized d d' : write d d' -> normalized d -> normalized d'.
Proof.
  intros W (G & S).
  destruct W as [k v d _|v d|g d Ue Ut|n st d Un Tr _|from s t d Get Ue Ut];
    unfold normalized;
    cbn [global_transitions states set_header add_assumption add_global
           with_states];
    (split; [|]); auto.
  - apply Forall_app. split; [exact G|]. now repeat constructor.
  - apply Forall_dict_set; [exact S|]. cbn [fst snd]. rewrite Tr.
    split; [exact Un | constructor].
  - apply Forall_dict_set; [exact S|]. cbn [fst snd].
    apply dict_get_In in Get. rewrite Forall_forall in S.
    destruct (S _ Get) as [Uf Ts]. cbn [fst snd] in Uf, Ts.
    split; [exact Uf|]. cbn [append_transition transitions].
    apply Forall_app. split; [exact Ts|]. now repeat constructor.
Qed.

Lemma writes_normalized d d' : writes d d' -> normalized d -> normalized d'.
Proof.
  induction 1 as [|a b c W _ IH]; [auto|].
  intros U. apply IH. eapply write_normalized; eauto.
Qed.

(** X3: a completed parse keeps the document with every event, target and
    state name in upper case. *)
Theorem X3_parse_keeps_names_upper :
  forall dsl_text d d',
    normalized d -> parse dsl_text d = Ok d' -> normalized d'.
Proof.
  intros t d d' N H. eapply writes_normalized; [|exact N].
  eapply parse_writes; exact H.
Qed.

Lemma normalized_initial : normalized _get_initial_structure.
Proof. split; constructor. Qed.

Lemma X3_names_upper_witness :
  let dsl_text :=
    dsl ["GLOBAL_TRANSITIONS:"; "on_event(reset): DO(stop) -> to(idle)";
         "STATE_LIST:"; "idle # start"; "TRANSITIONS:"; "from(Idle):";
         "On_Event(go): IF (x) -> To(idle)"]%string in
  normalized _get_initial_structure /\
  exists d',
    parse dsl_text _get_initial_structure = Ok d' /\ normalized d' /\
    keys (states d') = [txt "IDLE"].
Proof.
  intros t. split; [apply normalized_initial|].
  eexists. split; [vm_compute; reflexivity|]. split.
  - eapply (X3_parse_keeps_names_upper t); [apply normalized_initial|].
    vm_compute. reflexivity.
  - reflexivity.
Defined.

Lemma extends_refl d : extends d d.
Proof.
  repeat split; try (exists []; now rewrite app_nil_r). auto.
Qed.

Lemma extends_trans a b c : extends a b -> extends b c -> extends a c.
Proof.
  intros ((x1 & A1) & (y1 & G1) & (z1 & S1) & H1)
         ((x2 & A2) & (y2 & G2) & (z2 & S2) & H2).
  repeat split.
  - exists (x1 ++ x2). now rewrite A2, A1, app_assoc.
  - exists (y1 ++ y2). now rewrite G2, G1, app_assoc.
  - exists (z1 ++ z2). now rewrite S2, S1, app_assoc.
  - auto.
Qed.

Lemma keys_dict_set_more {V} k (v : V) d :
  exists more, keys (dict_set k v d) = keys d ++ more.
Proof.
  destruct (in_dec text_eq_dec k (keys d)) as [I|I].
  - exists []. now rewrite keys_dict_set_present, app_nil_r.
  - exists [k]. now rewrite keys_dict_set_absent.
Qed.

Lemma write_extends d d' : write d d' -> extends d d'.
Proof.
  intros W.
  destruct W as [k v d _|v d|g d _ _|n st d _ _ _|from s t d _ _ _];
    unfold extends;
    cbn [header assumptions global_transitions states set_header
           add_assumption add_global with_states];
    repeat split;
    try (exists []; now rewrite app_nil_r);
    try (eexists; reflexivity);
    try apply keys_dict_set_more; auto.
  intros k0 I. destruct (keys_dict_set_more k v (header d)) as (more & ->).
  apply in_or_app. now left.
Qed.

Lemma writes_extends d d' : writes d d' -> extends d d'.
Proof.
  induction 1 as [|a b c W _ IH]; [apply extends_refl|].
  eapply extends_trans; [|exact IH]. now apply write_extends.
Qed.

(** X4: a completed parse only adds: the assumptions, the global
    transitions and the state names of the document it started from are
    still there, first and in the same order, and no header key is
    lost. *)
Theorem X4_parse_only_extends :
  forall dsl_text d d', parse dsl_text d = Ok d' -> extends d d'.
Proof.
  intros t d d' H. apply writes_extends. eapply parse_writes; exact H.
Qed.

Lemma X4_extends_witness :
  let dsl_text := dsl ["STATE_LIST:"; "spare"; "idle_locked"]%string in
  exists d',
    parse dsl_text door_lock = Ok d' /\ extends door_lock d' /\
    keys (states d')
    = [txt "IDLE_LOCKED"; txt "IDLE_UNLOCKED"; txt "SPARE"].
Proof.
  intros t. eexists. split; [vm_compute; reflexivity|]. split.
  - apply (X4_parse_only_extends t). vm_compute. reflexivity.
  - reflexivity.
Defined.

(** ** Header lines and texts without sections *)

Lemma header_directive_frame keyword line f d :
  (forall v d0, states (f v d0) = states d0 /\
                global_transitions (f v d0) = global_transitions d0) ->
  exists d', header_directive keyword line f d = Ok d' /\
             states d' = states d /\
             global_transitions d' = global_transitions d.
Proof.
  intros F. destruct (header_directive_cases keyword line f d)
    as [E | (v & E)]; rewrite E; eexists; (split; [reflexivity|]).
  - now split.
  - apply F.
Qed.

Lemma parse_header_frame p line :
  exists d',
    _parse_header p line = Ok (with_sm p d') /\
    states d' = states (sm p) /\
    global_transitions d' = global_transitions (sm p).
Proof.
  unfold _parse_header.
  destruct (header_directive_frame (txt "FEATURE") line
              (set_header (txt "feature")) (sm p)) as (d1 & E1 & S1 & G1);
    [now split|].
  destruct (header_directive_frame (txt "INTENT") line
              (set_header (txt "intent")) d1) as (d2 & E2 & S2 & G2);
    [now split|].
  destruct (header_directive_frame (txt "ASSUME") line
              add_assumption d2) as (d3 & E3 & S3 & G3);
    [now split|].
  rewrite E1. cbn [bind]. rewrite E2. cbn [bind]. rewrite E3. cbn [bind].
  exists d3. split; [reflexivity|]. split; congruence.
Qed.

(** X6: a header line never raises, and whatever it holds it leaves the
    states, the global transitions, the active section and the active
    source state as they are. *)
Theorem X6_header_line_never_raises :
  forall p line,
    exists p',
      _parse_header p line = Ok p' /\
      states (sm p') = states (sm p) /\
      global_transitions (sm p') = global_transitions (sm p) /\
      current_section p' = current_section p /\
      current_from_state p' = current_from_state p.
Proof.
  intros p line.
  destruct (parse_header_frame p line) as (d' & E & S & G).
  exists (with_sm p d'). now repeat split.
Qed.




(** ** The matcher finds what is there *)

Section MatcherComplete.
Variable A : Type.

(** A greedy repetition succeeds where its continuation succeeds after
    the longest run. *)
Lemma star_greedy_longest k s (cont : text -> option A) a :
  cont (drop_class k s) = Some a -> star_greedy k s cont = Some a.
Proof.
  induction s as [|c s IH]; cbn [star_greedy drop_class]; [auto|].
  destruct (in_class k c); [|auto].
  intros H. now rewrite (IH H).
Qed.




(** The letters of a pattern match the same letters in either case. *)
Lemma rmatch_lits p : forall w s g (cont : text -> captures -> option A),
  same_ci w p -> rmatch (lits p) (w ++ s) g cont = cont s g.
Proof.
  unfold same_ci.
  induction p as [|c p IH]; intros [|x w] s g cont E;
    try discriminate; [reflexivity|].
  cbn [lower map] in E. injection E as E1 E2.
  cbn [lits rmatch app]. rewrite E1, Ascii.eqb_refl. now apply IH.
Qed.

Lemma rmatch_cat r1 r2 s g (cont : text -> captures -> option A) :
  rmatch (Cat r1 r2) s g cont
  = rmatch r1 s g (fun s' g' => rmatch r2 s' g' cont).
Proof. reflexivity. Qed.


Lemma rmatch_group name r s g (cont : text -> captures -> option A) :
  rmatch (Group name r) s g cont
  = rmatch r s g
      (fun s' g' =>
         cont s' (dict_set name
                           (firstn (List.length s - List.length s') s) g')).
Proof. reflexivity. Qed.
End MatcherComplete.

Lemma drop_class_app k w s :
  all_in k w -> drop_class k (w ++ s) = drop_class k s.
Proof.
  induction 1 as [|c w Hc _ IH]; [reflexivity|].
  cbn [app drop_class]. now rewrite Hc.
Qed.

Lemma take_class_app k w s :
  all_in k w -> take_class k (w ++ s) = w ++ take_class k s.
Proof.
  induction 1 as [|c w Hc _ IH]; [reflexivity|].
  cbn [app take_class]. now rewrite Hc, IH.
Qed.















(** ** Section headers *)

Lemma startswith_app p : forall s,
  startswith p s = true -> exists r, s = p ++ r.
Proof.
  induction p as [|a p IH]; intros s H; [now exists s|].
  destruct s as [|b s]; [discriminate|]. cbn [startswith] in H.
  apply andb_true_iff in H as [E H]. apply Ascii.eqb_eq in E. subst b.
  destruct (IH s H) as (r & ->). now exists r.
Qed.

(** The names that [_set_section] can store. *)
Lemma section_name line :
  _is_section_header line = true ->
  In (hd [] (split ":"%char (upper line)))
     [txt "GLOBAL_TRANSITIONS"; txt "STATE_LIST"; txt "TRANSITIONS"].
Proof.
  unfold _is_section_header. intros H.
  apply orb_true_iff in H as [H|H]; [apply orb_true_iff in H as [H|H]|];
    apply startswith_app in H as (r & ->).
  - left. reflexivity.
  - right. left. reflexivity.
  - right. right. left. reflexivity.
Qed.

Lemma section_header_not_comment line :
  _is_section_header line = true ->
  nonempty line = true /\ startswith (txt "#") line = false.
Proof.
  destruct line as [|x l]; [discriminate|]. intros H.
  split; [reflexivity|]. cbn [txt list_ascii_of_string startswith].
  destruct (Ascii.eqb "#" x) eqn:E; [|reflexivity].
  apply Ascii.eqb_eq in E. subst x. vm_compute in H. discriminate.
Qed.

(** X9: a line that starts, in any case, with one of the three section
    headers switches the active section to [GLOBAL_TRANSITIONS],
    [STATE_LIST] or [TRANSITIONS], forgets the active source state and
    leaves the document as it is, whatever follows the colon on the
    line. *)
Theorem X9_section_header_line :
  forall p raw,
    _is_section_header (strip raw) = true ->
    exists name,
      In name [txt "GLOBAL_TRANSITIONS"; txt "STATE_LIST";
               txt "TRANSITIONS"] /\
      parse_line p raw
      = Ok {| sm := sm p; current_section := Some name;
              current_from_state := None |}.
Proof.
  intros p raw H.
  exists (hd [] (split ":"%char (upper (strip raw)))).
  split; [now apply section_name|].
  destruct (section_header_not_comment _ H) as [N C].
  unfold parse_line. now rewrite N, C, H.
Qed.

Lemma X9_section_header_witness :
  let raw := txt "  state_list: IDLE [Output: X=1]" in
  _is_section_header (strip raw) = true /\
  parse_line (in_section "TRANSITIONS" door_lock) raw
  = Ok (in_section "STATE_LIST" door_lock).
Proof.
  intros raw.
  assert (H : _is_section_header (strip raw) = true) by reflexivity.
  split; [exact H|].
  destruct (X9_section_header_line (in_section "TRANSITIONS" door_lock)
              raw H) as (name & _ & E).
  rewrite E. vm_compute in E. injection E as <-. reflexivity.
Defined.

(** ** Lines of the TRANSITIONS and GLOBAL_TRANSITIONS sections *)

Lemma rmatch_plus_ok {A} k x s g (cont : text -> captures -> option A) :
  in_class k x = true ->
  rmatch (Plus k) (x :: s) g cont = star_greedy k s (fun s' => cont s' g).
Proof. intros E. cbn [rmatch]. now rewrite E. Qed.

(** The match of a FROM line: the state is the run of word characters
    between the parentheses. *)
Lemma re_match_from kw name rest :
  same_ci kw (txt "FROM(") -> all_in Word name -> name <> [] ->
  re_match pat_from (kw ++ name ++ txt "):" ++ rest)
  = Some [(txt "state", name)].
Proof.
  intros K W N. destruct name as [|x name]; [congruence|].
  inversion W as [|? ? Hx Hn]; subst.
  unfold re_match, pat_from. cbn [seq].
  rewrite rmatch_cat, rmatch_lits by exact K.
  rewrite rmatch_cat, rmatch_group. cbn [app].
  rewrite rmatch_plus_ok by exact Hx.
  apply star_greedy_longest.
  rewrite (drop_class_app _ Hn).
  change (drop_class Word (txt "):" ++ rest)) with (txt "):" ++ rest).
  rewrite rmatch_cat, rmatch_lits by reflexivity.
  cbn [rmatch]. unfold accept.
  change (x :: name ++ txt "):" ++ rest)
    with ((x :: name) ++ txt "):" ++ rest).
  now rewrite firstn_app_exact.
Qed.

(** X10: a line that starts with [FROM(], in any case, a state name and
    [):] makes the name in upper case the active source state, whether or
    not that state is declared; it changes nothing else and adds no
    transition. *)
Theorem X10_from_line_sets_source_state :
  forall p kw name rest,
    same_ci kw (txt "FROM(") -> all_in Word name -> name <> [] ->
    _parse_transitions_item p (kw ++ name ++ txt "):" ++ rest)
    = Ok {| sm := sm p; current_section := current_section p;
            current_from_state := Some (upper name) |}.
Proof.
  intros p kw name rest K W N. unfold _parse_transitions_item.
  rewrite re_match_from by assumption. reflexivity.
Qed.

Lemma X10_from_line_witness :
  let p := in_section "TRANSITIONS" door_lock in
  same_ci (txt "from(") (txt "FROM(") /\
  all_in Word (txt "ghost") /\ txt "ghost" <> [] /\
  _parse_transitions_item p (txt "from(ghost): # unknown")
  = Ok {| sm := door_lock; current_section := Some (txt "TRANSITIONS");
          current_from_state := Some (txt "GHOST") |}.
Proof.
  intros p.
  assert (K : same_ci (txt "from(") (txt "FROM(")) by reflexivity.
  assert (W : all_in Word (txt "ghost")) by (repeat constructor).
  assert (N : txt "ghost" <> []) by discriminate.
  repeat (split; [assumption|]).
  exact (X10_from_line_sets_source_state p (txt " # unknown") K W N).
Defined.








(** ** STATE_LIST lines, outputs and comments *)




Example parse_outputs_skips_malformed_parts :
  parse_outputs (txt " Bolt = HIGH , Led, A=B=C, Bolt=LOW ,=")
  = [(txt "Bolt", txt "LOW"); ([], [])].
Proof. vm_compute. reflexivity. Qed.





(** ** The validator as a whole *)

Lemma for_each_ok_inv {X} (xs : list X) body cs :
  for_each xs body = Ok cs ->
  forall x, In x xs -> exists c, body x = Ok c.
Proof.
  revert cs. induction xs as [|y xs IH]; intros cs H x I; [destruct I|].
  cbn [for_each] in H.
  destruct (body y) as [c|e] eqn:B; [|discriminate]. cbn [bind] in H.
  destruct (for_each xs body) as [cs'|e] eqn:F; [|discriminate].
  destruct I as [<-|I]; [now exists c | eapply IH; eauto].
Qed.

Lemma flat_map_nil {X Y} (f : X -> list Y) l :
  flat_map f l = [] <-> forall x, In x l -> f x = [].
Proof.
  induction l as [|a l IH]; cbn [flat_map].
  - split; [intros _ x [] | reflexivity].
  - split.
    + intros H. apply app_eq_nil in H as [Ha Hl].
      intros x [<-|I]; [exact Ha | now apply IH].
    + intros H. rewrite (H a) by now left. apply IH.
      intros x I. apply H. now right.
Qed.

(** The comment check completes exactly on the documents where every
    state and every transition has a comment. *)
Lemma check_comment_hints_ok_iff d :
  (exists cs, _check_comment_hints d = Ok cs) <-> all_commented d.
Proof.
  split.
  - intros (cs & H) k st I.
    destruct (for_each_ok_inv _ _ H (k, st) I) as (c & B).
    cbn beta iota in B.
    destruct (comment st) as [cm|] eqn:C; [|discriminate].
    split; [discriminate|]. intros t It.
    cbn [py_in bind] in B.
    destruct (if contains (txt "v2") cm then Ok true
              else Ok (contains (txt "future") cm)) as [hit|e] eqn:Hit;
      [|destruct (contains (txt "v2") cm); discriminate].
    cbn [bind] in B.
    destruct (for_each (transitions st) _) as [r|e] eqn:R; [|discriminate].
    destruct (for_each_ok_inv _ _ R t It) as (c' & Bt).
    destruct (t_comment t); [discriminate | discriminate].
  - intros H. eexists. now apply check_comment_hints_commented.
Qed.

Section ValidatorWhole.
Variable set_iter : pyset -> list text.
Hypothesis set_iter_perm :
  forall s, Permutation (set_iter s) (nodup text_eq_dec s).

Lemma validate_eq d cs3 :
  _check_comment_hints d = Ok cs3 ->
  validate set_iter d =
  Ok (_check_undefined_states set_iter d
      ++ flat_map
           (fun x => if deadlockedb d x then [deadlock_message x] else [])
           (set_iter (get_all_defined_states d))
      ++ cs3).
Proof.
  intros H. unfold validate.
  rewrite (find_deadlocks_eq set_iter set_iter_perm d). cbn [bind].
  now rewrite H.
Qed.

Lemma no_undefined_iff d :
  _check_undefined_states set_iter d = [] <->
  forall s, ~ undefined_state d s.
Proof.
  unfold _check_undefined_states.
  destruct (set_diff (get_all_target_states d) (get_all_defined_states d))
    as [|x u] eqn:E.
  - split; [|reflexivity]. intros _ s U.
    apply set_diff_In in U. rewrite E in U. destruct U.
  - split; [discriminate|]. intros H. exfalso. apply (H x).
    apply set_diff_In. rewrite E. now left.
Qed.

Lemma no_deadlock_iff d :
  flat_map (fun x => if deadlockedb d x then [deadlock_message x] else [])
           (set_iter (get_all_defined_states d)) = [] <->
  forall s, ~ deadlocked d s.
Proof.
  rewrite flat_map_nil. split.
  - intros H s D.
    assert (I : In s (set_iter (get_all_defined_states d))).
    { apply (set_iter_In set_iter set_iter_perm).
      unfold get_all_defined_states. apply dict_get_in_keys.
      destruct D as [(st & E & _) _]. congruence. }
    specialize (H s I). apply deadlockedb_spec in D. rewrite D in H.
    discriminate.
  - intros H x _. destruct (deadlockedb d x) eqn:B; [|reflexivity].
    apply deadlockedb_spec in B. now apply H in B.
Qed.

(** X17: on a document where every state and transition has a comment,
    the validator returns the empty list, the signal that the design is
    accepted, exactly when no target is undefined, no state is a deadlock
    and the comments give no notice. *)
Theorem X17_validate_accepts_iff_no_defect :
  forall d,
    all_commented d ->
    (validate set_iter d = Ok [] <->
     (forall s, ~ undefined_state d s) /\
     (forall s, ~ deadlocked d s) /\
     comment_notices d = []).
Proof.
  intros d C.
  rewrite (validate_eq d (check_comment_hints_commented C)).
  rewrite <- no_undefined_iff, <- no_deadlock_iff. split.
  - intros [= H]. apply app_eq_nil in H as [H1 H].
    apply app_eq_nil in H as [H2 H3]. now repeat split.
  - intros (H1 & H2 & H3). now rewrite H1, H2, H3.
Qed.

(** X18: the validator returns a list of critiques exactly on the
    documents where every state and every transition has a comment; on
    any other document it raises. *)
Theorem X18_validate_completes_iff_all_commented :
  forall d,
    (exists cs, validate set_iter d = Ok cs) <-> all_commented d.
Proof.
  intros d. rewrite <- check_comment_hints_ok_iff. split.
  - intros (cs & H). unfold validate in H.
    rewrite (find_deadlocks_eq set_iter set_iter_perm d) in H.
    cbn [bind] in H.
    destruct (_check_comment_hints d) as [c3|e]; [|discriminate].
    now exists c3.
  - intros (c3 & H). eexists. apply validate_eq. exact H.
Qed.

(** X19: a target that is not a declared state is named by the
    undefined-state check only: the deadlock check, which looks at declared
    states, never emits a notice for it. *)
Theorem X19_undefined_state_is_no_deadlock :
  forall d s,
    undefined_state d s ->
    exists cs,
      _find_deadlocks set_iter d = Ok cs /\
      ~ In (deadlock_message s) cs.
Proof.
  intros d s [_ U]. eexists.
  split; [apply (find_deadlocks_eq set_iter set_iter_perm)|].
  intros I. apply in_flat_map in I as (x & Ix & I).
  destruct (deadlockedb d x); [|destruct I].
  destruct I as [E|[]]. apply deadlock_message_inj in E. subst x.
  apply U. exact (proj1 (set_iter_In set_iter set_iter_perm _ _) Ix).
Qed.
End ValidatorWhole.

Lemma all_commented_two_state_lock : all_commented two_state_lock.
Proof.
  apply check_comment_hints_ok_iff. eexists. vm_compute. reflexivity.
Qed.

Lemma all_commented_door_lock : all_commented door_lock.
Proof.
  apply check_comment_hints_ok_iff. eexists. vm_compute. reflexivity.
Qed.

Lemma X17_accepted_design_witness :
  (forall s, Permutation (insertion_order s) (nodup text_eq_dec s)) /\
  all_commented two_state_lock /\
  validate insertion_order two_state_lock = Ok [] /\
  (forall s, ~ undefined_state two_state_lock s) /\
  (forall s, ~ deadlocked two_state_lock s).
Proof.
  split; [exact insertion_order_perm|].
  split; [exact all_commented_two_state_lock|].
  assert (V : validate insertion_order two_state_lock = Ok [])
    by (vm_compute; reflexivity).
  split; [exact V|].
  destruct (proj1 (X17_validate_accepts_iff_no_defect
                     insertion_order insertion_order_perm
                     all_commented_two_state_lock) V) as (U & D & _).
  now split.
Defined.

Lemma X18_validate_completes_witness :
  (forall s, Permutation (insertion_order s) (nodup text_eq_dec s)) /\
  all_commented door_lock /\
  exists cs, validate insertion_order door_lock = Ok cs.
Proof.
  split; [exact insertion_order_perm|].
  split; [exact all_commented_door_lock|].
  exact (proj2 (X18_validate_completes_iff_all_commented
                  insertion_order insertion_order_perm door_lock)
               all_commented_door_lock).
Defined.

Lemma X19_undefined_no_deadlock_witness :
  (forall s, Permutation (insertion_order s) (nodup text_eq_dec s)) /\
  undefined_state door_lock (txt "ALARM") /\
  exists cs,
    _find_deadlocks insertion_order door_lock = Ok cs /\
    ~ In (deadlock_message (txt "ALARM")) cs.
Proof.
  split; [exact insertion_order_perm|].
  assert (U : undefined_state door_lock (txt "ALARM")).
  { apply undefined_state_spec. split; [|vm_compute; reflexivity].
    apply targets_referenced. vm_compute. tauto. }
  split; [exact U|].
  exact (X19_undefined_state_is_no_deadlock
           insertion_order insertion_order_perm U).
Defined.

(** ** The file of the state machine *)

Lemma skip_ws_blank s :
  Forall (fun c => is_ws c = true) s -> skip_ws s = [].
Proof.
  induction 1 as [|c s Hc _ IH]; [reflexivity|].
  cbn [skip_ws]. now rewrite Hc.
Qed.

(** X20: [load] gives the initial structure, without raising, when the
    file does not exist and when it is empty or holds only blanks. *)
Theorem X20_load_absent_or_blank :
  forall f,
    f = None \/
    (exists s, f = Some s /\ Forall (fun c => is_ws c = true) s) ->
    load f = to_json _get_initial_structure.
Proof.
  intros f [-> | (s & -> & B)]; [reflexivity|].
  unfold load, json_loads. now rewrite (skip_ws_blank B).
Qed.

Lemma X20_load_blank_witness :
  (Some [" "%char; newline] = None \/
   exists s, Some [" "%char; newline] = Some s /\
             Forall (fun c => is_ws c = true) s) /\
  load (Some [" "%char; newline]) = to_json _get_initial_structure.
Proof.
  assert (H : Some [" "%char; newline] = None \/
              exists s, Some [" "%char; newline] = Some s /\
                        Forall (fun c => is_ws c = true) s).
  { right. eexists. split; [reflexivity|]. repeat constructor. }
  split; [exact H|]. exact (X20_load_absent_or_blank H).
Defined.

(** X21: [read_current_design] on the file that [save] wrote returns the
    text of the file as it is: the pretty-printing of what it reads is the
    text that was written. *)
Theorem X21_read_current_design_after_save :
  forall d,
    unique_keys d ->
    exists content,
      save d = Some content /\ read_current_design (save d) = content.
Proof.
  intros d U. eexists. split; [reflexivity|].
  unfold read_current_design, save.
  now rewrite json_loads_dumps by now apply wf_to_json.
Qed.

Lemma unique_keys_two_state_lock : unique_keys two_state_lock.
Proof.
  unfold unique_keys, two_state_lock;
    cbn [header states keys map fst snd outputs].
  split; [distinct_keys|]. split; [distinct_keys|].
  repeat (constructor; [cbn [snd outputs keys map fst]; distinct_keys|]).
  constructor.
Qed.

Lemma X21_read_design_witness :
  unique_keys two_state_lock /\
  exists content,
    save two_state_lock = Some content /\
    read_current_design (save two_state_lock) = content.
Proof.
  split; [exact unique_keys_two_state_lock|].
  exact (X21_read_current_design_after_save unique_keys_two_state_lock).
Defined.

Example read_current_design_messages :
  read_current_design None = txt "No design currently exists." /\
  read_current_design (Some (txt "{ broken"))
  = txt "Error: The 'state_machine.json' file is corrupted.".
Proof. split; vm_compute; reflexivity. Qed.

(** ** The agent *)

Section AgentFacts.
Variable set_iter : pyset -> list text.

(** X22: when [process_dsl_file] returns on a DSL file that exists, the
    agent holds the parsed document; the file of the state machine is
    rewritten exactly when the validator returned no critique, and then
    [load] reads from it the document the agent holds; with critiques the
    file is left as it was. *)
Theorem X22_process_dsl_file_saves_accepted_design :
  forall file_path dsl_text data json_file response data' json_file',
    unique_keys data ->
    process_dsl_file set_iter file_path (Some dsl_text) data json_file
    = Ok (response, data', json_file') ->
    parse dsl_text data = Ok data' /\
    ((validate set_iter data' = Ok [] /\
      load json_file' = to_json data') \/
     (exists c cs, validate set_iter data' = Ok (c :: cs) /\
                   json_file' = json_file)).
Proof.
  intros path t data jf r d' jf' U H. unfold process_dsl_file in H.
  destruct (parse t data) as [d|e] eqn:P; [|discriminate].
  cbn [bind] in H.
  destruct (validate set_iter d) as [[|c cs]|e] eqn:V; [| |discriminate];
    cbn [bind] in H; injection H as _ <- <-;
    (split; [reflexivity|]).
  - left. split; [exact V|]. unfold load, save.
    rewrite json_loads_dumps; [reflexivity|].
    apply wf_to_json. eapply parse_unique_keys; eauto.
  - right. now exists c, cs.
Qed.
End AgentFacts.

Lemma X22_process_accepted_witness :
  let dsl_text :=
    dsl ["# FEATURE: Door Lock"; "STATE_LIST:";
         "LOCKED [Output: Bolt=HIGH] # secured";
         "OPEN # released"; "TRANSITIONS:"; "FROM(LOCKED):";
         "ON_EVENT(KEY): IF (ok) -> TO(OPEN) # unlock"; "FROM(OPEN):";
         "ON_EVENT(TIMEOUT): IF (late) -> TO(LOCKED) # lock again"]%string in
  unique_keys _get_initial_structure /\
  exists response data' json_file',
    process_dsl_file insertion_order (txt "lock.dsl") (Some dsl_text)
                     _get_initial_structure None
    = Ok (response, data', json_file') /\
    validate insertion_order data' = Ok [] /\
    load json_file' = to_json data'.
Proof.
  intros t. split; [exact unique_keys_initial|].
  destruct (process_dsl_file insertion_order (txt "lock.dsl") (Some t)
              _get_initial_structure None)
    as [[[r d'] f']|e] eqn:E; [|vm_compute in E; discriminate].
  pose proof (X22_process_dsl_file_saves_accepted_design
                insertion_order (txt "lock.dsl") t None
                unique_keys_initial E) as (_ & H).
  exists r, d', f'. split; [reflexivity|].
  destruct H as [(V & L) | (c & cs & V & _)]; [now split|].
  exfalso. vm_compute in E. injection E as _ <- _.
  vm_compute in V. discriminate.
Defined.

Example process_dsl_file_numbers_critiques :
  exists response,
    process_dsl_file insertion_order (txt "lock.dsl")
      (Some (dsl ["STATE_LIST:"; "A # first"; "TRANSITIONS:"; "FROM(A):";
                  "ON_EVENT(E): IF (x) -> TO(B) # critical"]%string))
      _get_initial_structure None
    = Ok (response,
          {| header := []; assumptions := []; global_transitions := [];
             states :=
               [(txt "A",
                 {| outputs := []; comment := Some (txt "first");
                    transitions :=
                      [{| t_event := txt "E"; t_condition := txt "x";
                          t_target := txt "B";
                          t_comment := Some (txt "critical") |}] |})] |},
          None) /\
    contains (txt "- **Feature:** N/A") response = true /\
    contains (txt "    1. Undefined State Error") response = true /\
    contains (txt "    2. Criticality Notice") response = true.
Proof. eexists. repeat split; vm_compute; reflexivity. Qed.

(** ** The only exception of the parser *)

Lemma parse_global_raises p line e :
  _parse_global_transition p line = Raise e -> e = AttributeError.
Proof.
  intros H. destruct (re_search pat_global line) as [m|] eqn:S.
  - destruct (re_search_sound _ _ S) as (pre & w & post & L & M).
    destruct (pat_global_inv M) as (ev & tg & E & T & _).
    rewrite (parse_global_transition_match p _ S E T) in H.
    destruct (group (txt "actions") m); [discriminate | congruence].
  - unfold _parse_global_transition in H. rewrite S in H. discriminate.
Qed.

Lemma parse_state_list_raises p line e :
  _parse_state_list_item p line = Raise e -> False.
Proof.
  destruct (existsb isword line) eqn:W.
  - rewrite parse_state_list_item_word by exact W. discriminate.
  - rewrite parse_state_list_item_noword by exact W. discriminate.
Qed.

Lemma parse_transitions_raises p line e :
  _parse_transitions_item p line = Raise e -> e = AttributeError.
Proof.
  intros H. destruct (re_match pat_from line) as [fm|] eqn:F.
  - unfold _parse_transitions_item in H. rewrite F in H.
    destruct (group (txt "state") fm); cbn in H; [discriminate|congruence].
  - destruct (current_from_state p) as [[|c from]|] eqn:C;
      try (unfold _parse_transitions_item in H; rewrite F, C in H;
           discriminate).
    destruct (re_search pat_trans line) as [m|] eqn:S.
    + destruct (re_search_sound _ _ S) as (pre & w & post & L & M).
      destruct (pat_trans_inv M) as (ev & tg & E & T & _).
      rewrite (parse_transitions_item_match p _ F C
                 (not_eq_sym (@nil_cons _ c from)) S E T) in H.
      destruct (group (txt "condition") m); [|congruence].
      destruct (dict_get (c :: from) (states (sm p))); discriminate.
    + unfold _parse_transitions_item in H. rewrite F, C, S in H.
      discriminate.
Qed.

Lemma parse_line_raises p raw e :
  parse_line p raw = Raise e -> e = AttributeError.
Proof.
  unfold parse_line. intros H.
  destruct (negb (nonempty (strip raw))); [discriminate|].
  destruct (startswith (txt "#") (strip raw)).
  { destruct (parse_header_frame p (strip raw)) as (d' & E & _).
    rewrite E in H. discriminate. }
  destruct (_is_section_header (strip raw)); [discriminate|].
  unfold _parse_line_in_section in H.
  destruct (current_section p) as [sec|]; [|discriminate].
  destruct (text_eqb sec (txt "GLOBAL_TRANSITIONS"));
    [now apply parse_global_raises in H|].
  destruct (text_eqb sec (txt "STATE_LIST"));
    [now apply parse_state_list_raises in H|].
  destruct (text_eqb sec (txt "TRANSITIONS"));
    [now apply parse_transitions_raises in H|].
  discriminate.
Qed.

Lemma parse_lines_raises lines : forall p e,
  parse_lines p lines = Raise e -> e = AttributeError.
Proof.
  induction lines as [|l ls IH]; intros p e H; cbn [parse_lines] in H;
    [discriminate|].
  destruct (parse_line p l) as [p1|e1] eqn:E; cbn [bind] in H.
  - now apply IH in H.
  - injection H as <-. now apply parse_line_raises in E.
Qed.

(** X8: when the parser raises, the exception is [AttributeError]: the
    subscripts of the match dictionaries never miss their key, and no
    other line than an ON_EVENT line without its optional clause makes the
    parse stop. *)
Theorem X8_parse_raises_only_attribute_error :
  forall dsl_text d e,
    parse dsl_text d = Raise e -> e = AttributeError.
Proof.
  intros t d e H. unfold parse in H.
  destruct (parse_lines _ _) as [p|e1] eqn:E; [discriminate|].
  injection H as <-. now apply parse_lines_raises in E.
Qed.

Lemma X8_parse_raises_witness :
  let dsl_text :=
    dsl ["STATE_LIST:"; "A"; "TRANSITIONS:"; "FROM(A):";
         "ON_EVENT(E): -> TO(A)"]%string in
  exists e,
    parse dsl_text door_lock = Raise e /\ e = AttributeError.
Proof.
  intros t.
  destruct (parse t door_lock) as [d|e] eqn:E;
    [vm_compute in E; discriminate|].
  exists e. split; [reflexivity|].
  exact (X8_parse_raises_only_attribute_error t door_lock E).
Defined.

(** ** The keys of the header *)

Lemma in_keys_dict_set {V} k0 k (v : V) d :
  In k0 (keys (dict_set k v d)) -> In k0 (keys d) \/ k0 = k.
Proof.
  destruct (in_dec text_eq_dec k (keys d)) as [I|I].
  - rewrite keys_dict_set_present by exact I. now left.
  - rewrite keys_dict_set_absent by exact I. intros H.
    apply in_app_or in H as [H|[<-|[]]]; auto.
Qed.

Lemma write_header_keys d d' k0 :
  write d d' -> In k0 (keys (header d')) ->
  In k0 (keys (header d)) \/ k0 = txt "feature" \/ k0 = txt "intent".
Proof.
  intros W.
  destruct W as [k v d K|v d|g d _ _|n st d _ _ _|from s t d _ _ _];
    cbn [header set_header add_assumption add_global with_states]; auto.
  intros I. apply in_keys_dict_set in I as [I | ->]; auto.
Qed.

Lemma writes_header_keys d d' k0 :
  writes d d' -> In k0 (keys (header d')) ->
  In k0 (keys (header d)) \/ k0 = txt "feature" \/ k0 = txt "intent".
Proof.
  induction 1 as [|a b c W _ IH]; [auto|]. intros I.
  destruct (IH I) as [H|H]; [|auto]. eapply write_header_keys; eauto.
Qed.

(** X1: the only header keys that a completed parse adds are [feature]
    and [intent]; parsed from the initial structure, a header has no other
    key. *)
Theorem X1_parse_header_keys :
  forall dsl_text d d' k,
    parse dsl_text d = Ok d' ->
    In k (keys (header d')) ->
    In k (keys (header d)) \/ k = txt "feature" \/ k = txt "intent".
Proof.
  intros t d d' k H. apply writes_header_keys.
  eapply parse_writes; exact H.
Qed.

Lemma X1_header_keys_witness :
  let dsl_text :=
    dsl ["# INTENT: keep the door shut"; "# Owner: nobody";
         "# feature: Lock"; "# Feature: Door"]%string in
  exists d',
    parse dsl_text _get_initial_structure = Ok d' /\
    header d' = [(txt "intent", txt "keep the door shut");
                 (txt "feature", txt "Door")] /\
    (In (txt "intent") (keys (header _get_initial_structure)) \/
     txt "intent" = txt "feature" \/ txt "intent" = txt "intent").
Proof.
  intros t. eexists. split; [vm_compute; reflexivity|].
  split; [reflexivity|].
  eapply (X1_parse_header_keys t); [vm_compute; reflexivity|].
  vm_compute. tauto.
Defined.
